(** * The accordion panel of core/src/components/accordion/accordion.tsx

    A shallow embedding of the [Accordion] component: its fields, the
    page it lives in (host element, enclosing group, layout, inline
    styles, platform settings), the animation-frame queue and the pending
    transition-end waits.  Methods are state-passing functions on
    [World]; the callbacks handed to [raf] and the code after each
    [await] are first-order values run by the event loop [step].

    The header's slotted [ion-item] (its defaults, the toggle icon, the
    [aria-expanded] projection), what [render] hands to the host, and the
    counter behind autogenerated values touch neither the state machine
    nor the group; they are modelled on their own, after the event
    loop. *)

From stdpp Require Import base numbers strings pretty list gmap.

Local Open Scope Z_scope.

(** ** Data model *)

(** [const enum AccordionState] (lines 9-14). *)
Inductive AccordionState := Collapsed | Collapsing | Expanded | Expanding.

#[global] Instance AccordionState_eq_dec : EqDecision AccordionState.
Proof. solve_decision. Defined.

(** The numeric values the enum compiles to. *)
Definition state_code (s : AccordionState) : Z :=
  match s with
  | Collapsed => Z.shiftl 1 0
  | Collapsing => Z.shiftl 1 1
  | Expanded => Z.shiftl 1 2
  | Expanding => Z.shiftl 1 3
  end.

(** [accordionGroup.value]: [string | string[] | null | undefined]. *)
Inductive GroupValue :=
| ValueUndefined
| ValueNull
| ValueSingle (v : string)
| ValueArray (vs : list string).

(** The enclosing [ion-accordion-group] element, as far as the accordion
    uses it.  [group_listening] tells whether [updateListener] is
    registered for [ionValueChange] on it. *)
Record AccordionGroup := {
  group_value : GroupValue;
  group_animated : bool;
  group_listening : bool;
}.

(** [accordionGroupEl?: HTMLIonAccordionGroupElement | null] (line 41).
    The page holds one group element, so a reference to a group is
    [RefElement]. *)
Inductive GroupRef := RefUndefined | RefNull | RefElement.

(** An element next to the host in document order.  Its [value] is
    undefined on an element that is no accordion, and on an accordion
    that is not set up yet. *)
Record Sibling := {
  tagName : string;
  sibling_value : option string;
}.

(** [this.el], the host element: whether an [ion-accordion-group]
    ancestor encloses it, and its element siblings. *)
Record HostElement := {
  closest_group : bool;
  nextElementSibling : option Sibling;
  previousElementSibling : option Sibling;
}.

(** The frame callbacks of [expandAccordion] and [collapseAccordion],
    each with the element references its closure captured. *)
Inductive Callback :=
| ExpandOuter (contentEl contentElWrapper : nat)    (* lines 232-245 *)
| ExpandInner (contentEl contentElWrapper : nat)    (* lines 235-244 *)
| CollapseOuter (contentEl : nat)                   (* lines 267-281 *)
| CollapseInner (contentEl : nat).                  (* lines 271-280 *)

(** The rest of an async callback after [await waitForTransition]. *)
Inductive Continuation :=
| ExpandResume (contentEl : nat)                    (* lines 242-243 *)
| CollapseResume (contentEl : nat).                 (* lines 278-279 *)

(** A pending [transitionEndAsync] promise with the code awaiting it. *)
Record Waiter := {
  waiter_el : nat;
  waiter_deadline : Z;
  waiter_resume : Continuation;
}.

(** What the component does that others can observe. *)
Inductive Effect :=
| StateWrite (s : AccordionState)
| ToggleRequest (value : string) (expand : bool).

(** The fields of an [Accordion] instance (lines 41-74). *)
Record Accordion := {
  accordionGroupEl : GroupRef;
  contentEl : option nat;
  contentElWrapper : option nat;
  currentRaf : option Z;
  state : AccordionState;
  isNext : bool;
  isPrevious : bool;
  value : string;
  disabled : bool;
  readonly : bool;
}.

(** The page: platform settings, the host element, the group element,
    layout heights and inline [max-height] styles (in px) per element. *)
Record Page := {
  hasWindow : bool;
  prefersReducedMotion : bool;
  configAnimated : option bool;
  el : option HostElement;
  group : AccordionGroup;
  offsetHeights : gmap nat Z;
  maxHeights : gmap nat Z;
}.

(** The platform's scheduler: requested animation frames in request
    order, the next frame handle, pending transition waits, the clock. *)
Record Scheduler := {
  frames : list (Z * Callback);
  nextHandle : Z;
  waiters : list Waiter;
  now : Z;
}.

Record World := {
  acc : Accordion;
  page : Page;
  sched : Scheduler;
  trace : list Effect;
}.

(** ** Field updates *)

Definition with_acc (f : Accordion → Accordion) (w : World) : World :=
  {| acc := f (acc w); page := page w; sched := sched w; trace := trace w |}.

Definition with_page (f : Page → Page) (w : World) : World :=
  {| acc := acc w; page := f (page w); sched := sched w; trace := trace w |}.

Definition with_sched (f : Scheduler → Scheduler) (w : World) : World :=
  {| acc := acc w; page := page w; sched := f (sched w); trace := trace w |}.

Definition emit (e : Effect) (w : World) : World :=
  {| acc := acc w; page := page w; sched := sched w; trace := trace w ++ [e] |}.

Definition acc_set_state (s : AccordionState) (a : Accordion) : Accordion :=
  {| accordionGroupEl := accordionGroupEl a; contentEl := contentEl a;
     contentElWrapper := contentElWrapper a; currentRaf := currentRaf a;
     state := s; isNext := isNext a; isPrevious := isPrevious a;
     value := value a; disabled := disabled a; readonly := readonly a |}.

Definition acc_set_isNext (b : bool) (a : Accordion) : Accordion :=
  {| accordionGroupEl := accordionGroupEl a; contentEl := contentEl a;
     contentElWrapper := contentElWrapper a; currentRaf := currentRaf a;
     state := state a; isNext := b; isPrevious := isPrevious a;
     value := value a; disabled := disabled a; readonly := readonly a |}.

Definition acc_set_isPrevious (b : bool) (a : Accordion) : Accordion :=
  {| accordionGroupEl := accordionGroupEl a; contentEl := contentEl a;
     contentElWrapper := contentElWrapper a; currentRaf := currentRaf a;
     state := state a; isNext := isNext a; isPrevious := b;
     value := value a; disabled := disabled a; readonly := readonly a |}.

Definition acc_set_currentRaf (h : option Z) (a : Accordion) : Accordion :=
  {| accordionGroupEl := accordionGroupEl a; contentEl := contentEl a;
     contentElWrapper := contentElWrapper a; currentRaf := h;
     state := state a; isNext := isNext a; isPrevious := isPrevious a;
     value := value a; disabled := disabled a; readonly := readonly a |}.

Definition acc_set_group (r : GroupRef) (a : Accordion) : Accordion :=
  {| accordionGroupEl := r; contentEl := contentEl a;
     contentElWrapper := contentElWrapper a; currentRaf := currentRaf a;
     state := state a; isNext := isNext a; isPrevious := isPrevious a;
     value := value a; disabled := disabled a; readonly := readonly a |}.

Definition acc_set_refs (c cw : option nat) (a : Accordion) : Accordion :=
  {| accordionGroupEl := accordionGroupEl a; contentEl := c;
     contentElWrapper := cw; currentRaf := currentRaf a;
     state := state a; isNext := isNext a; isPrevious := isPrevious a;
     value := value a; disabled := disabled a; readonly := readonly a |}.

Definition acc_set_value (v : string) (a : Accordion) : Accordion :=
  {| accordionGroupEl := accordionGroupEl a; contentEl := contentEl a;
     contentElWrapper := contentElWrapper a; currentRaf := currentRaf a;
     state := state a; isNext := isNext a; isPrevious := isPrevious a;
     value := v; disabled := disabled a; readonly := readonly a |}.

Definition page_set_group (g : AccordionGroup) (p : Page) : Page :=
  {| hasWindow := hasWindow p; prefersReducedMotion := prefersReducedMotion p;
     configAnimated := configAnimated p; el := el p; group := g;
     offsetHeights := offsetHeights p; maxHeights := maxHeights p |}.

Definition page_set_maxHeights (m : gmap nat Z) (p : Page) : Page :=
  {| hasWindow := hasWindow p; prefersReducedMotion := prefersReducedMotion p;
     configAnimated := configAnimated p; el := el p; group := group p;
     offsetHeights := offsetHeights p; maxHeights := m |}.

Definition sched_set_frames (fs : list (Z * Callback)) (s : Scheduler) : Scheduler :=
  {| frames := fs; nextHandle := nextHandle s; waiters := waiters s; now := now s |}.

Definition sched_set_waiters (ws : list Waiter) (s : Scheduler) : Scheduler :=
  {| frames := frames s; nextHandle := nextHandle s; waiters := ws; now := now s |}.

Definition sched_set_now (t : Z) (s : Scheduler) : Scheduler :=
  {| frames := frames s; nextHandle := nextHandle s; waiters := waiters s; now := t |}.

(** [this.state = s]. *)
Definition set_state (s : AccordionState) (w : World) : World :=
  emit (StateWrite s) (with_acc (acc_set_state s) w).

(** ** Platform and helper operations *)

(** [el.offsetHeight]; an element without a layout box measures 0. *)
Definition offsetHeight (e : nat) (w : World) : Z :=
  default 0 (offsetHeights (page w) !! e).

(** [el.style.setProperty('max-height', `${h}px`)]. *)
Definition setMaxHeight (e : nat) (h : Z) (w : World) : World :=
  with_page (λ p, page_set_maxHeights (<[e := h]> (maxHeights p)) p) w.

(** [el.style.removeProperty('max-height')]. *)
Definition removeMaxHeight (e : nat) (w : World) : World :=
  with_page (λ p, page_set_maxHeights (delete e (maxHeights p)) p) w.

(** Modelled from the spec: the helper [raf] of [@utils/helpers] is not in
    the sources at hand.  The spec has it schedule its callback on the
    next paint frame and give back a handle by which the frame can be
    cancelled while it has not run. *)
Definition raf (cb : Callback) (w : World) : Z * World :=
  let h := nextHandle (sched w) in
  (h, with_sched (λ s, {| frames := frames s ++ [(h, cb)];
                          nextHandle := h + 1;
                          waiters := waiters s; now := now s |}) w).

(** [cancelAnimationFrame(h)]: a requested frame that has not run is
    dropped; any other handle is ignored. *)
Definition cancelAnimationFrame (h : Z) (w : World) : World :=
  with_sched (λ s, sched_set_frames
                     (filter (λ f, f.1 ≠ h) (frames s)) s) w.

(** Modelled from the spec: the helper [transitionEndAsync] of
    [@utils/helpers] is not in the sources at hand.  The spec has it
    listen for the element's transition-end signal, bounded by a timeout
    of the given duration; the promise settles on whichever comes first.
    [k] is the code that awaits the promise: between the call and the
    [await] only synchronous code runs, so both are registered at once. *)
Definition transitionEndAsync (e : nat) (expectedDuration : Z)
    (k : Continuation) (w : World) : World :=
  with_sched (λ s, sched_set_waiters
    (waiters s ++ [{| waiter_el := e;
                      waiter_deadline := now s + expectedDuration;
                      waiter_resume := k |}]) s) w.

(** ** The component's methods *)

(** [shouldAnimate] (lines 294-314). *)
Definition shouldAnimate (w : World) : bool :=
  if negb (hasWindow (page w)) then false
  else if prefersReducedMotion (page w) then false
  else if negb (default true (configAnimated (page w))) then false
  else if match accordionGroupEl (acc w) with
          | RefElement => negb (group_animated (group (page w)))
          | _ => false
          end then false
  else true.

(** [if (this.currentRaf !== undefined) cancelAnimationFrame(...)]. *)
Definition cancelCurrentRaf (w : World) : World :=
  match currentRaf (acc w) with
  | Some h => cancelAnimationFrame h w
  | None => w
  end.

(** [expandAccordion] (lines 216-249). *)
Definition expandAccordion (initialUpdate : bool) (w : World) : World :=
  match initialUpdate, contentEl (acc w), contentElWrapper (acc w) with
  | false, Some c, Some cw =>
      if decide (state (acc w) = Expanded) then w
      else
        let w := cancelCurrentRaf w in
        if shouldAnimate w then (raf (ExpandOuter c cw) w).2
        else set_state Expanded w
  | _, _, _ => set_state Expanded w
  end.

(** [collapseAccordion] (lines 251-285). *)
Definition collapseAccordion (initialUpdate : bool) (w : World) : World :=
  match initialUpdate, contentEl (acc w) with
  | false, Some c =>
      if decide (state (acc w) = Collapsed) then w
      else
        let w := cancelCurrentRaf w in
        if shouldAnimate w then
          let '(h, w) := raf (CollapseOuter c) w in
          with_acc (acc_set_currentRaf (Some h)) w
        else set_state Collapsed w
  | _, _ => set_state Collapsed w
  end.

(** Running a frame callback. *)
Definition run_callback (cb : Callback) (w : World) : World :=
  match cb with
  | ExpandOuter c cw =>
      let w := set_state Expanding w in
      let '(h, w) := raf (ExpandInner c cw) w in
      with_acc (acc_set_currentRaf (Some h)) w
  | ExpandInner c cw =>
      let contentHeight := offsetHeight cw w in
      let w := transitionEndAsync c 2000 (ExpandResume c) w in
      setMaxHeight c contentHeight w
  | CollapseOuter c =>
      let contentHeight := offsetHeight c w in
      let w := setMaxHeight c contentHeight w in
      (raf (CollapseInner c) w).2
  | CollapseInner c =>
      let w := transitionEndAsync c 2000 (CollapseResume c) w in
      set_state Collapsing w
  end.

(** Running the code after an [await]. *)
Definition run_continuation (k : Continuation) (w : World) : World :=
  match k with
  | ExpandResume c => removeMaxHeight c (set_state Expanded w)
  | CollapseResume c => removeMaxHeight c (set_state Collapsed w)
  end.

(** [Array.isArray(value) ? value.includes(v) : value === v]. *)
Definition is_open (gv : GroupValue) (v : string) : bool :=
  match gv with
  | ValueArray vs => bool_decide (v ∈ vs)
  | ValueSingle s => bool_decide (s = v)
  | ValueNull | ValueUndefined => false
  end.

(** [getNextSibling] and [getPreviousSibling] (lines 357-383). *)
Definition accordion_sibling (s : option Sibling) : option Sibling :=
  match s with
  | Some sb => if decide (tagName sb = "ION-ACCORDION") then Some sb else None
  | None => None
  end.

Definition getNextSibling (w : World) : option Sibling :=
  match el (page w) with
  | None => None
  | Some e => accordion_sibling (nextElementSibling e)
  end.

Definition getPreviousSibling (w : World) : option Sibling :=
  match el (page w) with
  | None => None
  | Some e => accordion_sibling (previousElementSibling e)
  end.

(** [updateState] (lines 316-355).  It is declared async but awaits
    nothing, so a call runs to its end at once. *)
Definition updateState (initialUpdate : bool) (w : World) : World :=
  match accordionGroupEl (acc w) with
  | RefElement =>
      let accordionValue := value (acc w) in
      let gv := group_value (group (page w)) in
      if is_open gv accordionValue then
        let w := expandAccordion initialUpdate w in
        with_acc (λ a, acc_set_isNext false (acc_set_isPrevious false a)) w
      else
        let w := collapseAccordion initialUpdate w in
        let nextAccordionValue := getNextSibling w ≫= sibling_value in
        let w :=
          match nextAccordionValue with
          | Some v => with_acc (acc_set_isPrevious (is_open gv v)) w
          | None => w
          end in
        let previousAccordionValue := getPreviousSibling w ≫= sibling_value in
        match previousAccordionValue with
        | Some v => with_acc (acc_set_isNext (is_open gv v)) w
        | None => w
        end
  | _ => w
  end.

(** [this.el?.closest('ion-accordion-group')]. *)
Definition closest_accordion_group (w : World) : GroupRef :=
  match el (page w) with
  | None => RefUndefined
  | Some e => if closest_group e then RefElement else RefNull
  end.

(** Adding or removing [updateListener] on the group element. *)
Definition set_listening (b : bool) (w : World) : World :=
  with_page (λ p, page_set_group
    {| group_value := group_value (group p);
       group_animated := group_animated (group p);
       group_listening := b |} p) w.

(** [connectedCallback] (lines 89-95). *)
Definition connectedCallback (w : World) : World :=
  let r := closest_accordion_group w in
  let w := with_acc (acc_set_group r) w in
  match r with
  | RefElement => set_listening true (updateState true w)
  | _ => w
  end.

(** [disconnectedCallback] (lines 97-102). *)
Definition disconnectedCallback (w : World) : World :=
  match accordionGroupEl (acc w) with
  | RefElement => set_listening false w
  | _ => w
  end.

(** [toggleExpanded] (lines 385-402). *)
Definition toggleExpanded (w : World) : World :=
  if disabled (acc w) || readonly (acc w) then w
  else
    match accordionGroupEl (acc w) with
    | RefElement =>
        let expand :=
          bool_decide (state (acc w) = Collapsed)
          || bool_decide (state (acc w) = Collapsing) in
        emit (ToggleRequest (value (acc w)) expand) w
    | _ => w
    end.

(** ** The event loop *)

(** What can happen to an attached accordion. *)
Inductive Event :=
| Connect                               (* the host enters the document *)
| Disconnect                            (* the host leaves the document *)
| Render (content wrapper : nat)        (* render() runs, refs are assigned *)
| GroupValueChange (gv : GroupValue)    (* the group's value changes *)
| ValueProp (v : string)                (* the [value] prop is set *)
| Click                                 (* a click on the header *)
| Settings (window reduced : bool) (config : option bool) (animated : bool)
| AnimationFrame                        (* the next paint frame *)
| TransitionEnd (e : nat)               (* transitionend fires on e *)
| Elapse (dt : Z).                      (* dt time units pass *)

(** The callback requested under handle [h], if it is still pending. *)
Definition pending_frame (h : Z) (w : World) : option Callback :=
  snd <$> head (filter (λ f, f.1 = h) (frames (sched w))).

(** One paint frame runs the callbacks requested before it, in request
    order; a callback cancelled by an earlier one of the same frame does
    not run, and callbacks requested during the frame wait for the next. *)
Fixpoint run_frames (hs : list Z) (w : World) : World :=
  match hs with
  | [] => w
  | h :: hs =>
      match pending_frame h w with
      | Some cb => run_frames hs (run_callback cb (cancelAnimationFrame h w))
      | None => run_frames hs w
      end
  end.

Definition animationFrame (w : World) : World :=
  run_frames (fst <$> frames (sched w)) w.

(** The waits selected by [due] settle in the order they were made, and
    the code awaiting each one resumes. *)
Definition settle (due : Waiter → bool) (w : World) : World :=
  let ws := waiters (sched w) in
  let w := with_sched (sched_set_waiters (filter (λ x, due x = false) ws)) w in
  foldl (λ w x, run_continuation (waiter_resume x) w) w
        (filter (λ x, due x = true) ws).

Definition transitionEnd (e : nat) (w : World) : World :=
  settle (λ x, bool_decide (waiter_el x = e)) w.

Definition elapse (dt : Z) (w : World) : World :=
  let t := now (sched w) + Z.max 0 dt in
  settle (λ x, bool_decide (waiter_deadline x ≤ t))
         (with_sched (sched_set_now t) w).

(** Modelled from the spec: the group component is not in the sources at
    hand.  The spec has it hold the open-set and broadcast a change
    notification whenever the open-set changes; the accordion's
    [updateListener] (line 42) answers with [updateState(false)]. *)
Definition set_group_value (gv : GroupValue) (w : World) : World :=
  with_page (λ p, page_set_group
    {| group_value := gv;
       group_animated := group_animated (group p);
       group_listening := group_listening (group p) |} p) w.

Definition groupValueChange (gv : GroupValue) (w : World) : World :=
  let w := set_group_value gv w in
  if group_listening (group (page w)) then updateState false w else w.

(** [valueChanged] (lines 60-63) after the prop is set. *)
Definition valueChanged (v : string) (w : World) : World :=
  updateState false (with_acc (acc_set_value v) w).

(** The refs of lines 446 and 448. *)
Definition render (c cw : nat) (w : World) : World :=
  with_acc (acc_set_refs (Some c) (Some cw)) w.

Definition settings (window reduced : bool) (config : option bool)
    (animated : bool) (w : World) : World :=
  with_page (λ p,
    {| hasWindow := window; prefersReducedMotion := reduced;
       configAnimated := config; el := el p;
       group := {| group_value := group_value (group p);
                   group_animated := animated;
                   group_listening := group_listening (group p) |};
       offsetHeights := offsetHeights p; maxHeights := maxHeights p |}) w.

Definition step (w : World) (ev : Event) : World :=
  match ev with
  | Connect => connectedCallback w
  | Disconnect => disconnectedCallback w
  | Render c cw => render c cw w
  | GroupValueChange gv => groupValueChange gv w
  | ValueProp v => valueChanged v w
  | Click => toggleExpanded w
  | Settings wd rd cf an => settings wd rd cf an w
  | AnimationFrame => animationFrame w
  | TransitionEnd e => transitionEnd e w
  | Elapse dt => elapse dt w
  end.

Definition run (evs : list Event) (w : World) : World := foldl step w evs.

(** A newly constructed instance (field initialisers of lines 41-74) in a
    page where nothing is scheduled yet. *)
Definition fresh (v : string) (p : Page) : World :=
  {| acc := {| accordionGroupEl := RefUndefined; contentEl := None;
               contentElWrapper := None; currentRaf := None;
               state := Collapsed; isNext := false; isPrevious := false;
               value := v; disabled := false; readonly := false |};
     page := p;
     sched := {| frames := []; nextHandle := 1; waiters := []; now := 0 |};
     trace := [] |}.

(** ** Vocabulary of the properties *)

Definition terminal (s : AccordionState) : Prop :=
  s = Collapsed ∨ s = Expanded.

(** The state the group's open-set asks of this instance. *)
Definition target (w : World) : AccordionState :=
  if is_open (group_value (group (page w))) (value (acc w))
  then Expanded else Collapsed.

(** The two commands of the animation driver, and the state each aims at. *)
Inductive Command := CmdExpand | CmdCollapse.

Definition issue (c : Command) (initialUpdate : bool) (w : World) : World :=
  match c with
  | CmdExpand => expandAccordion initialUpdate w
  | CmdCollapse => collapseAccordion initialUpdate w
  end.

Definition goal (c : Command) : AccordionState :=
  match c with CmdExpand => Expanded | CmdCollapse => Collapsed end.

(** The command [updateState] issues for an open-set. *)
Definition command_for (gv : GroupValue) (v : string) : Command :=
  if is_open gv v then CmdExpand else CmdCollapse.

(** Nothing is in flight: no frame requested, no transition awaited. *)
Definition idle (w : World) : Prop :=
  frames (sched w) = [] ∧ waiters (sched w) = [].

(** What holds of an instance that found no group when it attached. *)
Definition groupless (listening : bool) (w : World) : Prop :=
  closest_accordion_group w ≠ RefElement
  ∧ accordionGroupEl (acc w) ≠ RefElement
  ∧ group_listening (group (page w)) = listening
  ∧ state (acc w) = Collapsed
  ∧ idle w
  ∧ trace w = [].

(** The event that ends a transition on [c]: the transition-end signal,
    or the timeout of 2000 time units running out. *)
Definition completes (c : nat) (ev : Event) : Prop :=
  ev = TransitionEnd c ∨ ∃ dt, 2000 ≤ dt ∧ ev = Elapse dt.

(** Attached to a group, listening to it, nothing in flight, and in the
    state the group's open-set asks for. *)
Definition synced (w : World) : Prop :=
  accordionGroupEl (acc w) = RefElement
  ∧ group_listening (group (page w)) = true
  ∧ idle w
  ∧ state (acc w) = target w.

(** An event that ends whatever transition runs on the content element:
    enough time passing, or the transition-end signal on that element. *)
Definition ends_transition (content : option nat) (ev : Event) : Prop :=
  (∃ dt, 2000 ≤ dt ∧ ev = Elapse dt)
  ∨ (∃ c, content = Some c ∧ ev = TransitionEnd c).


(** What a round leaves alone. *)
Definition stable (u u' : World) : Prop :=
  accordionGroupEl (acc u') = accordionGroupEl (acc u)
  ∧ value (acc u') = value (acc u)
  ∧ contentEl (acc u') = contentEl (acc u)
  ∧ group (page u') = group (page u).

(** An update of the neighbour flags only. *)
Definition flag_update (g : Accordion → Accordion) : Prop :=
  ∀ a, accordionGroupEl (g a) = accordionGroupEl a
       ∧ contentEl (g a) = contentEl a
       ∧ state (g a) = state a
       ∧ value (g a) = value a.

(** ** A sample page *)

Definition sample_group (gv : GroupValue) : AccordionGroup :=
  {| group_value := gv; group_animated := true; group_listening := false |}.

Definition sample_page (gv : GroupValue) : Page :=
  {| hasWindow := true; prefersReducedMotion := false;
     configAnimated := None;
     el := Some {| closest_group := true;
                   nextElementSibling :=
                     Some {| tagName := "ION-ACCORDION";
                             sibling_value := Some "b" |};
                   previousElementSibling := None |};
     group := sample_group gv;
     offsetHeights := {[ 10%nat := 120; 11%nat := 96 ]};
     maxHeights := ∅ |}.

(** A page in which no group encloses the host element. *)
Definition lone_page : Page :=
  {| hasWindow := true; prefersReducedMotion := false;
     configAnimated := None;
     el := Some {| closest_group := false;
                   nextElementSibling := None;
                   previousElementSibling := None |};
     group := sample_group (ValueArray ["a"]);
     offsetHeights := ∅; maxHeights := ∅ |}.

(** Panel "a" attached to its group and rendered once. *)
Definition attached (gv : GroupValue) : World :=
  run [Connect; Render 10 11] (fresh "a" (sample_page gv)).

(** ** Scenarios *)



(** Panel "a" in the middle of an animated collapse: the open-set went
    from ["a"] to ["b"], both frames of the collapse have run, the
    transition has not ended.  The state is Collapsing. *)
Definition collapsing_panel : World :=
  run [GroupValueChange (ValueArray ["b"]); AnimationFrame; AnimationFrame]
      (attached (ValueArray ["a"])).

(** Panel "a" in the middle of an animated expand. *)
Definition expanding_panel : World :=
  run [GroupValueChange (ValueArray ["a"]); AnimationFrame; AnimationFrame]
      (attached (ValueArray [])).

(** Panel "a" opened with animation; while the expand awaits the end of
    its transition the group switches animation off and announces a new
    open-set that still holds "a" (the expand command sets Expanded at
    once), then switches animation on again.  The state is Expanded, no
    frame is pending, but the wait of the animated expand still is. *)
Definition expanded_with_stale_wait : World :=
  run [GroupValueChange (ValueArray ["a"]); AnimationFrame; AnimationFrame;
       Settings true false None false;
       GroupValueChange (ValueArray ["a"; "b"]);
       Settings true false None true]
      (attached (ValueArray [])).

(** ** The header's slotted item *)

(** An element inside the slotted item, as far as [slotToggleIcon] sets
    or inspects it. *)
Record Descendant := {
  desc_tagName : string;
  desc_slot : string;
  desc_lazy : bool;
  desc_classList : list string;
  desc_icon : string;
  desc_attributes : gmap string string;
}.

(** An element assigned to the header slot, with the properties the
    accordion reads or assigns on an [ion-item].  [item_descendants] are
    the element's descendants in document order, so that a selector
    query answers with the first match and an appended child comes last.

    Modelled from the spec: the helper [getElementRoot] of
    [@utils/helpers] is not in the sources at hand.  The spec has the
    accordion reach the item's inner focusable element, which may be
    absent; [item_native_button] holds the attributes of the [button]
    found in the item's root, if there is one. *)
Record Slotted := {
  slotted_tagName : string;
  item_button : bool;
  item_detail : option bool;
  item_lines : option string;
  item_descendants : list Descendant;
  item_native_button : option (gmap string string);
}.

(** The [slot] element of the header; [assignedElements] is undefined
    where the platform lacks it (line 165). *)
Record SlotElement := {
  assignedElements : option (list Slotted);
}.

(** [this.headerEl] with what it holds: the first [slot] inside it. *)
Record HeaderElement := {
  header_slot : option SlotElement;
}.

(** [getSlottedHeaderIonItem] (lines 149-168): the first assigned element
    whose tag is ION-ITEM, with its place among the assigned elements. *)
Definition getSlottedHeaderIonItem (headerEl : option HeaderElement)
    : option (nat * Slotted) :=
  match headerEl with
  | None => None
  | Some h =>
      match header_slot h with
      | None => None
      | Some slot =>
          match assignedElements slot with
          | None => None
          | Some els => list_find (λ e, slotted_tagName e = "ION-ITEM") els
          end
      end
  end.

(** Writing back the element found at place [i]. *)
Definition put_slotted (i : nat) (x : Slotted)
    (headerEl : option HeaderElement) : option HeaderElement :=
  match headerEl with
  | Some {| header_slot := Some {| assignedElements := Some els |} |} =>
      Some {| header_slot :=
                Some {| assignedElements := Some (<[i := x]> els) |} |}
  | _ => headerEl
  end.

(** [setItemDefaults] (lines 123-147). *)
Definition setItemDefaults (headerEl : option HeaderElement)
    : option HeaderElement :=
  match getSlottedHeaderIonItem headerEl with
  | None => headerEl
  | Some (i, ionItem) =>
      put_slotted i
        {| slotted_tagName := slotted_tagName ionItem;
           item_button := true;
           item_detail := Some false;
           item_lines := match item_lines ionItem with
                         | None => Some "full"
                         | Some l => Some l
                         end;
           item_descendants := item_descendants ionItem;
           item_native_button := item_native_button ionItem |}
        headerEl
  end.

(** The [ion-icon] built in lines 206-211. *)
Definition toggle_icon_element (toggleIconSlot toggleIcon : string)
    : Descendant :=
  {| desc_tagName := "ION-ICON";
     desc_slot := toggleIconSlot;
     desc_lazy := false;
     desc_classList := ["ion-accordion-toggle-icon"];
     desc_icon := toggleIcon;
     desc_attributes := {[ "aria-hidden" := "true" ]} |}.

(** [ionItem.querySelector('.ion-accordion-toggle-icon')]. *)
Definition existingToggleIcon (ionItem : Slotted) : option Descendant :=
  snd <$> list_find (λ d, "ion-accordion-toggle-icon" ∈ desc_classList d)
                    (item_descendants ionItem).

(** [slotToggleIcon] (lines 189-214). *)
Definition slotToggleIcon (toggleIconSlot toggleIcon : string)
    (headerEl : option HeaderElement) : option HeaderElement :=
  match getSlottedHeaderIonItem headerEl with
  | None => headerEl
  | Some (i, ionItem) =>
      match existingToggleIcon ionItem with
      | Some _ => headerEl
      | None =>
          put_slotted i
            {| slotted_tagName := slotted_tagName ionItem;
               item_button := item_button ionItem;
               item_detail := item_detail ionItem;
               item_lines := item_lines ionItem;
               item_descendants :=
                 item_descendants ionItem
                 ++ [toggle_icon_element toggleIconSlot toggleIcon];
               item_native_button := item_native_button ionItem |}
            headerEl
      end
  end.

(** [setAria] (lines 170-187); the attribute value is [`${expanded}`]. *)
Definition setAria (expanded : bool) (headerEl : option HeaderElement)
    : option HeaderElement :=
  match getSlottedHeaderIonItem headerEl with
  | None => headerEl
  | Some (i, ionItem) =>
      match item_native_button ionItem with
      | None => headerEl
      | Some button =>
          put_slotted i
            {| slotted_tagName := slotted_tagName ionItem;
               item_button := item_button ionItem;
               item_detail := item_detail ionItem;
               item_lines := item_lines ionItem;
               item_descendants := item_descendants ionItem;
               item_native_button :=
                 Some (<[ "aria-expanded" :=
                          if expanded then "true" else "false" ]> button) |}
            headerEl
      end
  end.

(** The [aria-expanded] attribute a screen reader finds on the header's
    button, if the button is there and carries one. *)
Definition aria_expanded (headerEl : option HeaderElement) : option string :=
  match getSlottedHeaderIonItem headerEl with
  | Some (_, ionItem) =>
      match item_native_button ionItem with
      | Some button => button !! "aria-expanded"
      | None => None
      end
  | None => None
  end.

(** [this.state === Expanded || this.state === Expanding] (lines 118
    and 407). *)
Definition expanded (s : AccordionState) : bool :=
  bool_decide (s = Expanded) || bool_decide (s = Expanding).

(** The synchronous part of [componentDidLoad] (lines 105-106). *)
Definition componentDidLoad_now (toggleIconSlot toggleIcon : string)
    (headerEl : option HeaderElement) : option HeaderElement :=
  slotToggleIcon toggleIconSlot toggleIcon (setItemDefaults headerEl).

(** The frame callback of [componentDidLoad] (lines 113-120), run on the
    paint frame after the load with the state as it is then. *)
Definition componentDidLoad_frame (w : World)
    (headerEl : option HeaderElement) : option HeaderElement :=
  setAria (expanded (state (acc w))) headerEl.

(** The elements assigned to the header slot, none when the header, the
    slot or [assignedElements] is missing. *)
Definition assigned (headerEl : option HeaderElement) : list Slotted :=
  match headerEl with
  | Some {| header_slot := Some {| assignedElements := Some els |} |} => els
  | _ => []
  end.

(** How many toggle icons an element holds. *)
Definition toggle_icons (x : Slotted) : nat :=
  length (filter (λ d, "ion-accordion-toggle-icon" ∈ desc_classList d)
                 (item_descendants x)).

(** ** What render hands to the host *)

(** The class object of the host, the two part names, and the header
    after the [setAria] call of line 411. *)
Record Rendered := {
  host_class : gmap string bool;
  headerPart : string;
  contentPart : string;
  rendered_header : option HeaderElement;
}.

(** [render] (lines 404-454) without its refs, which [render] above
    assigns.  [theme] stands for [getIonTheme(this)], whose source is not
    at hand.  Keys of the class object are written in source order, a
    later key replacing an equal earlier one. *)
Definition render_host (theme : string) (w : World)
    (headerEl : option HeaderElement) : Rendered :=
  let s := state (acc w) in
  {| host_class :=
       <[ "accordion-animated" := shouldAnimate w ]>
       (<[ "accordion-readonly" := readonly (acc w) ]>
       (<[ "accordion-disabled" := disabled (acc w) ]>
       (<[ "accordion-previous" := isPrevious (acc w) ]>
       (<[ "accordion-next" := isNext (acc w) ]>
       (<[ "accordion-collapsed" := bool_decide (s = Collapsed) ]>
       (<[ "accordion-collapsing" := bool_decide (s = Collapsing) ]>
       (<[ "accordion-expanded" := bool_decide (s = Expanded) ]>
       (<[ "accordion-expanding" := bool_decide (s = Expanding) ]>
       (<[ theme := true ]> ∅)))))))));
     headerPart := if expanded s then "header expanded" else "header";
     contentPart := if expanded s then "content expanded" else "content";
     rendered_header := setAria (expanded s) headerEl |}.

(** The four classes that show the state. *)
Definition state_classes : list string :=
  ["accordion-expanding"; "accordion-expanded";
   "accordion-collapsing"; "accordion-collapsed"].

(** ** Autogenerated values *)

(** [accordionIds++] (lines 59 and 457).  The counter is a JavaScript
    number: it counts exactly up to 2^53, where adding one gives the same
    number again. *)
Definition accordionIds_max : N := Eval cbv in (2 ^ 53)%N.

Definition accordionIds_next (accordionIds : N) : N :=
  if decide (accordionIds < accordionIds_max)%N
  then (accordionIds + 1)%N else accordionIds.

(** [`ion-accordion-${accordionIds++}`]: the default value of a new
    instance, and the counter after it. *)
Definition default_value (accordionIds : N) : string * N :=
  ("ion-accordion-" +:+ pretty accordionIds, accordionIds_next accordionIds).

(** The counter after [k] instances were constructed. *)
Definition accordionIds_after (k : N) : N := N.iter k accordionIds_next 0%N.

(** ** A sample header *)

Definition sample_item : Slotted :=
  {| slotted_tagName := "ION-ITEM"; item_button := false;
     item_detail := None; item_lines := Some "inset";
     item_descendants := [];
     item_native_button := Some ∅ |}.

Definition sample_label : Slotted :=
  {| slotted_tagName := "ION-LABEL"; item_button := false;
     item_detail := None; item_lines := None;
     item_descendants := [];
     item_native_button := None |}.

Definition sample_header : option HeaderElement :=
  Some {| header_slot :=
            Some {| assignedElements := Some [sample_label; sample_item] |} |}.

(** A header whose slot holds no [ion-item]. *)
Definition label_only_header : option HeaderElement :=
  Some {| header_slot :=
            Some {| assignedElements := Some [sample_label] |} |}.

(** A page where the host sits in its group between a [div] and another
    accordion. *)
Definition divided_page (gv : GroupValue) : Page :=
  {| hasWindow := true; prefersReducedMotion := false;
     configAnimated := None;
     el := Some {| closest_group := true;
                   nextElementSibling :=
                     Some {| tagName := "DIV"; sibling_value := Some "a" |};
                   previousElementSibling :=
                     Some {| tagName := "ION-ACCORDION";
                             sibling_value := Some "a" |} |};
     group := sample_group gv;
     offsetHeights := ∅; maxHeights := ∅ |}.

(** The elements around the host change: one is removed, inserted or
    replaced by the page's script. *)
Definition set_siblings (previous next : option Sibling) (w : World) : World :=
  with_page (λ p,
    {| hasWindow := hasWindow p;
       prefersReducedMotion := prefersReducedMotion p;
       configAnimated := configAnimated p;
       el := match el p with
             | Some e => Some {| closest_group := closest_group e;
                                 nextElementSibling := next;
                                 previousElementSibling := previous |}
             | None => None
             end;
       group := group p;
       offsetHeights := offsetHeights p; maxHeights := maxHeights p |}) w.

(** Panel "b" attaches right after the open panel "a" (and takes the
    flag [isNext]); then "a" is removed from the document and the group
    announces the empty open-set. *)
Definition after_neighbour_left : World :=
  step (set_siblings None None
          (run [Connect] (fresh "b" (divided_page (ValueArray ["a"])))))
       (GroupValueChange (ValueArray [])).

(** The same, but "a" is replaced by an accordion that has no value
    yet. *)
Definition after_neighbour_reset : World :=
  step (set_siblings
          (Some {| tagName := "ION-ACCORDION"; sibling_value := None |}) None
          (run [Connect] (fresh "b" (divided_page (ValueArray ["a"])))))
       (GroupValueChange (ValueArray [])).

(** ** Proof tools *)

Ltac world w :=
  destruct w as [[? ? ? ? ? ? ? ? ? ?] [? ? ? ? [? ? ?] ? ?] [? ? ? ?] ?].

(** ** Facts about the single operations *)

(** The four codes are distinct, so a state is known by its code; no
    code is a combination of others. *)
Lemma state_code_inj s1 s2 : state_code s1 = state_code s2 → s1 = s2.
Proof. by destruct s1, s2. Qed.

Lemma set_state_state s w : state (acc (set_state s w)) = s.
Proof. done. Qed.

Lemma set_state_sched s w : sched (set_state s w) = sched w.
Proof. done. Qed.

Lemma set_state_trace s w : trace (set_state s w) = trace w ++ [StateWrite s].
Proof. done. Qed.

Lemma set_state_same w : acc (set_state (state (acc w)) w) = acc w.
Proof. by world w. Qed.

Lemma cancelCurrentRaf_page w : page (cancelCurrentRaf w) = page w.
Proof. unfold cancelCurrentRaf. by case_match. Qed.

Lemma cancelCurrentRaf_acc w : acc (cancelCurrentRaf w) = acc w.
Proof. unfold cancelCurrentRaf. by case_match. Qed.



Lemma cancelCurrentRaf_rest w :
  nextHandle (sched (cancelCurrentRaf w)) = nextHandle (sched w)
  ∧ waiters (sched (cancelCurrentRaf w)) = waiters (sched w)
  ∧ now (sched (cancelCurrentRaf w)) = now (sched w).
Proof. unfold cancelCurrentRaf. by case_match. Qed.

Lemma cancelCurrentRaf_idle w :
  frames (sched w) = [] → cancelCurrentRaf w = w.
Proof.
  intros Hf. unfold cancelCurrentRaf. case_match; [|done].
  world w. simpl in *. subst. done.
Qed.

Lemma shouldAnimate_cancel w : shouldAnimate (cancelCurrentRaf w) = shouldAnimate w.
Proof.
  unfold shouldAnimate. by rewrite cancelCurrentRaf_page, cancelCurrentRaf_acc.
Qed.

(** ** Commands that do not animate *)

(** A command taking the first guard (lines 218 and 253) writes the
    terminal state once and touches nothing else. *)
Lemma expand_direct init w :
  init = true ∨ contentEl (acc w) = None ∨ contentElWrapper (acc w) = None →
  expandAccordion init w = set_state Expanded w.
Proof.
  unfold expandAccordion.
  destruct init, (contentEl (acc w)), (contentElWrapper (acc w)); try done.
  intros [?|[?|?]]; done.
Qed.

Lemma collapse_direct init w :
  init = true ∨ contentEl (acc w) = None →
  collapseAccordion init w = set_state Collapsed w.
Proof.
  unfold collapseAccordion.
  destruct init, (contentEl (acc w)); try done.
  intros [?|?]; done.
Qed.

Lemma issue_direct c init w :
  init = true ∨ contentEl (acc w) = None
  ∨ (c = CmdExpand ∧ contentElWrapper (acc w) = None) →
  issue c init w = set_state (goal c) w.
Proof.
  intros H. destruct c; simpl.
  - apply expand_direct. destruct H as [?|[?|[_ ?]]]; auto.
  - apply collapse_direct. destruct H as [?|[?|[? _]]]; auto. done.
Qed.

Lemma target_terminal w : terminal (target w).
Proof. unfold target, terminal. destruct (is_open _ _); auto. Qed.

(** C5: the call with initial-update semantics plays no animation: it
    requests no frame, awaits no transition, and writes the state exactly
    once, to the terminal value Expanded (for [expandAccordion]) or
    Collapsed (for [collapseAccordion]); [updateState(true)] and
    [connectedCallback], which make that call, leave the scheduler as it
    was and write at most one state, a terminal one. *)
Theorem initial_update_sets_terminal_state (w : World) :
  terminal (target w)
  ∧ (∀ c, state (acc (issue c true w)) = goal c
        ∧ terminal (goal c)
        ∧ sched (issue c true w) = sched w
        ∧ page (issue c true w) = page w
        ∧ trace (issue c true w) = trace w ++ [StateWrite (goal c)])
  ∧ (sched (updateState true w) = sched w
     ∧ (updateState true w = w
        ∨ state (acc (updateState true w)) = target w
          ∧ trace (updateState true w) = trace w ++ [StateWrite (target w)]))
  ∧ (sched (connectedCallback w) = sched w
     ∧ (trace (connectedCallback w) = trace w
        ∨ state (acc (connectedCallback w)) = target w
          ∧ trace (connectedCallback w) = trace w ++ [StateWrite (target w)])).
Proof.
  split; [apply target_terminal|].
  assert (Hupd : ∀ u, sched (updateState true u) = sched u
     ∧ (updateState true u = u
        ∨ state (acc (updateState true u)) = target u
          ∧ trace (updateState true u) = trace u ++ [StateWrite (target u)])).
  { intros u. unfold updateState, target.
    destruct (accordionGroupEl (acc u)); [by split; [|left]..|].
    destruct (is_open _ _).
    - rewrite expand_direct by auto. by split; [|right].
    - rewrite collapse_direct by auto.
      unfold getNextSibling, getPreviousSibling.
      split; [|right]; simpl; repeat case_match; done. }
  split; [|split].
  - intros c. rewrite issue_direct by auto.
    split; [done|]. split; [destruct c; [right|left]; done|done].
  - apply Hupd.
  - unfold connectedCallback.
    destruct (closest_accordion_group w) eqn:Hg; [by split; [|left]..|].
    set (u := with_acc (acc_set_group RefElement) w).
    change (target w) with (target u).
    change (sched w) with (sched u). change (trace w) with (trace u).
    destruct (Hupd u) as [Hs [Hu|[Hst Htr]]]; simpl.
    + split; [done|]. left. by rewrite Hu.
    + split; [done|]. right. by rewrite Hst, Htr.
Qed.

(** C10: a command issued while [contentEl] (or, for an expand, also
    [contentElWrapper]) is still undefined writes the terminal state at
    once, requests no frame and starts no transition wait, also when it
    is not an initial update and animation is enabled. *)
Theorem unrendered_command_is_direct (c : Command) (init : bool) (w : World) :
  contentEl (acc w) = None
  ∨ (c = CmdExpand ∧ contentElWrapper (acc w) = None) →
  state (acc (issue c init w)) = goal c
  ∧ sched (issue c init w) = sched w
  ∧ page (issue c init w) = page w
  ∧ trace (issue c init w) = trace w ++ [StateWrite (goal c)].
Proof. intros H. by rewrite issue_direct by auto. Qed.

(** A non-initial command whose goal state already holds changes
    nothing but, while a content ref is unset, the trace. *)
Lemma issue_at_goal c w :
  state (acc w) = goal c →
  acc (issue c false w) = acc w
  ∧ page (issue c false w) = page w
  ∧ sched (issue c false w) = sched w
  ∧ (trace (issue c false w) = trace w
     ∨ contentEl (acc w) = None ∨ contentElWrapper (acc w) = None).
Proof.
  intros Hs. destruct c; simpl in *;
    unfold expandAccordion, collapseAccordion;
    destruct (contentEl (acc w)), (contentElWrapper (acc w));
    try (rewrite decide_True by done);
    try (rewrite <- Hs, set_state_same); auto 6.
Qed.

(** C6: a non-initial expand issued while the state is Expanded, and a
    non-initial collapse issued while it is Collapsed, changes neither
    the component's fields (the state among them) nor the page nor the
    scheduler: no frame is requested or cancelled.  With both content
    refs set nothing at all happens; otherwise the same state is
    written once more. *)
Theorem command_in_goal_state_is_noop (c : Command) (w : World) :
  state (acc w) = goal c →
  acc (issue c false w) = acc w
  ∧ page (issue c false w) = page w
  ∧ sched (issue c false w) = sched w
  ∧ (trace (issue c false w) = trace w
     ∨ contentEl (acc w) = None ∨ contentElWrapper (acc w) = None).
Proof. apply issue_at_goal. Qed.

(** ** Animation disabled *)


Lemma issue_without_animation c init w :
  shouldAnimate w = false →
  issue c init w = w ∧ state (acc w) = goal c
  ∨ issue c init w = set_state (goal c) w
  ∨ issue c init w = set_state (goal c) (cancelCurrentRaf w).
Proof.
  intros Hno. destruct c; simpl; unfold expandAccordion, collapseAccordion.
  - destruct init, (contentEl (acc w)), (contentElWrapper (acc w)); auto.
    case_decide; [auto|]. rewrite shouldAnimate_cancel, Hno. auto.
  - destruct init, (contentEl (acc w)); auto.
    case_decide; [auto|]. rewrite shouldAnimate_cancel, Hno. auto.
Qed.


(** The answer follows the settings from one call to the next: whatever
    happened before, after the settings change the next command obeys the
    new ones. *)
Lemma shouldAnimate_settings wd rd cf an w :
  shouldAnimate (settings wd rd cf an w) =
    wd && negb rd && default true cf
    && match accordionGroupEl (acc w) with RefElement => an | _ => true end.
Proof.
  unfold shouldAnimate. simpl.
  destruct wd, rd, cf as [[]|], (accordionGroupEl (acc w)), an; done.
Qed.

(** ** Requests to the group *)

(** C8: a click on the header never changes the component's own fields,
    the page or the scheduler.  When [disabled] or [readonly] is set it
    submits nothing; otherwise, with a group, it submits exactly one
    toggle request for its value whose direction is expand exactly when
    the state is Collapsed or Collapsing (with no group there is nobody
    to ask, and nothing is submitted). *)
Theorem click_only_requests_toggle (w : World) :
  acc (toggleExpanded w) = acc w
  ∧ page (toggleExpanded w) = page w
  ∧ sched (toggleExpanded w) = sched w
  ∧ ∃ expand : bool,
      (expand = true ↔ state (acc w) = Collapsed ∨ state (acc w) = Collapsing)
      ∧ trace (toggleExpanded w) =
          trace w ++
          (if disabled (acc w) || readonly (acc w) then []
           else match accordionGroupEl (acc w) with
                | RefElement => [ToggleRequest (value (acc w)) expand]
                | _ => []
                end).
Proof.
  unfold toggleExpanded.
  repeat split;
    try (destruct (disabled (acc w) || readonly (acc w));
         [|destruct (accordionGroupEl (acc w))]; done).
  exists (bool_decide (state (acc w) = Collapsed)
          || bool_decide (state (acc w) = Collapsing)).
  split.
  - rewrite orb_true_iff, !bool_decide_eq_true. done.
  - destruct (disabled (acc w) || readonly (acc w));
      [|destruct (accordionGroupEl (acc w))]; simpl;
      by rewrite ?app_nil_r.
Qed.

(** ** Neighbour flags *)

Lemma issue_keeps_flags c init w :
  isNext (acc (issue c init w)) = isNext (acc w)
  ∧ isPrevious (acc (issue c init w)) = isPrevious (acc w)
  ∧ page (issue c init w) = page w.
Proof.
  destruct c; simpl; unfold expandAccordion, collapseAccordion, raf;
    repeat case_match; simpl;
    rewrite ?cancelCurrentRaf_acc, ?cancelCurrentRaf_page; done.
Qed.

Lemma getNextSibling_page u w :
  page u = page w → getNextSibling u = getNextSibling w.
Proof. unfold getNextSibling. by intros ->. Qed.

Lemma getPreviousSibling_page u w :
  page u = page w → getPreviousSibling u = getPreviousSibling w.
Proof. unfold getPreviousSibling. by intros ->. Qed.

(** On the collapse path each flag follows the value of one sibling
    accordion, if there is such a value, and stays as it was otherwise. *)
Lemma updateState_flags init w :
  accordionGroupEl (acc w) = RefElement →
  is_open (group_value (group (page w))) (value (acc w)) = false →
  isNext (acc (updateState init w)) =
    match getPreviousSibling w ≫= sibling_value with
    | Some v => is_open (group_value (group (page w))) v
    | None => isNext (acc w)
    end
  ∧ isPrevious (acc (updateState init w)) =
    match getNextSibling w ≫= sibling_value with
    | Some v => is_open (group_value (group (page w))) v
    | None => isPrevious (acc w)
    end.
Proof.
  intros Hg Ho. unfold updateState. rewrite Hg, Ho.
  destruct (issue_keeps_flags CmdCollapse init w) as (Hn & Hp & Hpg).
  simpl in Hn, Hp, Hpg. set (u := collapseAccordion init w) in *.
  rewrite (getNextSibling_page u w Hpg).
  destruct (getNextSibling w ≫= sibling_value) as [nv|].
  - rewrite (getPreviousSibling_page (with_acc _ u) w Hpg).
    destruct (getPreviousSibling w ≫= sibling_value); done.
  - rewrite (getPreviousSibling_page u w Hpg).
    destruct (getPreviousSibling w ≫= sibling_value); done.
Qed.

(** C7 (as amended): a run of [updateState] with a group resets [isNext]
    and [isPrevious] to false when the instance's value is in the
    open-set.  When it is not, [isNext] is set from the element before
    the host and [isPrevious] from the element after it: if that element
    exists, has the tag ION-ACCORDION and a defined value, the flag
    becomes whether that value is in the open-set; in every other case
    the flag keeps the value it had.  Without a group both flags stay,
    and the expand and collapse commands themselves never touch them. *)
Theorem neighbour_flags (init : bool) (w : World) :
  let gv := group_value (group (page w)) in
  let w' := updateState init w in
  let from_adjacent (old : bool) (adjacent : option Sibling) : bool :=
    match adjacent with
    | Some s =>
        if decide (tagName s = "ION-ACCORDION") then
          match sibling_value s with
          | Some v => is_open gv v
          | None => old
          end
        else old
    | None => old
    end in
  match accordionGroupEl (acc w) with
  | RefElement =>
      if is_open gv (value (acc w)) then
        isNext (acc w') = false ∧ isPrevious (acc w') = false
      else
        isNext (acc w') =
          from_adjacent (isNext (acc w))
                        (el (page w) ≫= previousElementSibling)
        ∧ isPrevious (acc w') =
          from_adjacent (isPrevious (acc w))
                        (el (page w) ≫= nextElementSibling)
  | _ => isNext (acc w') = isNext (acc w)
         ∧ isPrevious (acc w') = isPrevious (acc w)
  end
  ∧ ∀ c i, isNext (acc (issue c i w)) = isNext (acc w)
           ∧ isPrevious (acc (issue c i w)) = isPrevious (acc w).
Proof.
  cbv zeta. split.
  - destruct (accordionGroupEl (acc w)) eqn:Hg;
      [by unfold updateState; rewrite Hg..|].
    destruct (is_open _ _) eqn:Ho.
    + unfold updateState. by rewrite Hg, Ho.
    + destruct (updateState_flags init w Hg Ho) as [-> ->].
      unfold getPreviousSibling, getNextSibling, accordion_sibling.
      destruct (el (page w)) as [e|]; [|done]. simpl.
      destruct (previousElementSibling e) as [pv|],
        (nextElementSibling e) as [nx|]; simpl;
        repeat case_decide; done.
  - intros c i. destruct (issue_keeps_flags c i w) as (? & ? & _). done.
Qed.

(** ** The scheduler on small queues *)

Lemma world_eta w :
  {| acc := acc w; page := page w; sched := sched w; trace := trace w |} = w.
Proof. by destruct w. Qed.

Lemma sched_eta s :
  {| frames := frames s; nextHandle := nextHandle s;
     waiters := waiters s; now := now s |} = s.
Proof. by destruct s. Qed.

Lemma animationFrame_none w : frames (sched w) = [] → animationFrame w = w.
Proof. unfold animationFrame. by intros ->. Qed.

Lemma animationFrame_one w h cb :
  frames (sched w) = [(h, cb)] →
  animationFrame w = run_callback cb (with_sched (sched_set_frames []) w).
Proof.
  intros Hf. unfold animationFrame. rewrite Hf. simpl.
  unfold pending_frame, cancelAnimationFrame, with_sched. rewrite Hf.
  rewrite filter_cons_True by done. simpl.
  rewrite filter_cons_False by (simpl; tauto). done.
Qed.

Lemma settle_none due w : waiters (sched w) = [] → settle due w = w.
Proof.
  intros Hw. unfold settle. rewrite Hw.
  destruct w as [a p [fs nh ws t] tr]. simpl in Hw. by subst.
Qed.

Lemma settle_one due w x :
  waiters (sched w) = [x] → due x = true →
  settle due w =
    run_continuation (waiter_resume x) (with_sched (sched_set_waiters []) w).
Proof.
  intros Hw Hd. unfold settle. rewrite Hw.
  rewrite (filter_cons_True (λ y, due y = true)) by done.
  rewrite (filter_cons_False (λ y, due y = false)) by (rewrite Hd; done).
  done.
Qed.

(** ** An accordion without a group *)

Lemma updateState_groupless init w :
  accordionGroupEl (acc w) ≠ RefElement → updateState init w = w.
Proof. unfold updateState. by destruct (accordionGroupEl (acc w)). Qed.

Lemma disconnected_groupless w :
  accordionGroupEl (acc w) ≠ RefElement → disconnectedCallback w = w.
Proof. unfold disconnectedCallback. by destruct (accordionGroupEl (acc w)). Qed.

Lemma toggle_groupless w :
  accordionGroupEl (acc w) ≠ RefElement → toggleExpanded w = w.
Proof.
  unfold toggleExpanded. intros Hg.
  destruct (disabled (acc w) || readonly (acc w)); [done|].
  by destruct (accordionGroupEl (acc w)).
Qed.

Lemma step_groupless l w ev : groupless l w → groupless l (step w ev).
Proof.
  intros (Hc & Hg & Hl & Hs & [Hf Hw] & Ht).
  unfold groupless, idle. destruct ev; simpl.
  - unfold connectedCallback.
    destruct (closest_accordion_group w) eqn:E; [..|done];
      repeat split; simpl; try done;
      change (closest_accordion_group (with_acc _ w))
        with (closest_accordion_group w); by rewrite E.
  - rewrite disconnected_groupless by done. by repeat split.
  - by repeat split.
  - unfold groupValueChange.
    destruct (group_listening (group (page (set_group_value gv w))));
      rewrite ?updateState_groupless by done; by repeat split.
  - unfold valueChanged. rewrite updateState_groupless by done.
    by repeat split.
  - rewrite toggle_groupless by done. by repeat split.
  - by repeat split.
  - rewrite animationFrame_none by done. by repeat split.
  - unfold transitionEnd. rewrite settle_none by done. by repeat split.
  - unfold elapse. rewrite settle_none by done. by repeat split.
Qed.

Lemma run_groupless l evs w : groupless l w → groupless l (run evs w).
Proof.
  revert w. induction evs as [|ev evs IH]; intros w Hw; [done|].
  simpl. apply IH. by apply step_groupless.
Qed.

(** C9: when attaching finds no enclosing group, nothing fails and the
    instance stays put: whatever happens afterwards (renders, group value
    changes, clicks, prop and settings changes, frames, transition ends,
    time passing, detaching and attaching again), it holds no group, its
    listener is never registered, every [updateState] call returns
    without effect, no command is issued (no state is written, nothing
    is scheduled), and the state is the default Collapsed. *)
Theorem no_group_stays_collapsed (v : string) (p : Page) (evs : list Event) :
  closest_accordion_group (fresh v p) ≠ RefElement →
  let w := run (Connect :: evs) (fresh v p) in
  accordionGroupEl (acc w) ≠ RefElement
  ∧ group_listening (group (page w)) = group_listening (group p)
  ∧ (∀ init, updateState init w = w)
  ∧ state (acc w) = Collapsed
  ∧ idle w
  ∧ trace w = [].
Proof.
  intros Hc w.
  assert (Hg : groupless (group_listening (group p)) w).
  { apply run_groupless. by repeat split. }
  destruct Hg as (_ & Hg & Hl & Hs & Hi & Ht).
  repeat split; try done; try apply Hi.
  intros init. by apply updateState_groupless.
Qed.

(** ** Animated commands *)

Lemma collapse_animated w c :
  contentEl (acc w) = Some c → state (acc w) ≠ Collapsed →
  shouldAnimate w = true → frames (sched w) = [] →
  collapseAccordion false w =
    with_acc (acc_set_currentRaf (Some (nextHandle (sched w))))
      (with_sched (sched_set_frames
         [(nextHandle (sched w), CollapseOuter c)])
       (with_sched (λ s, {| frames := frames s;
                            nextHandle := nextHandle s + 1;
                            waiters := waiters s; now := now s |}) w)).
Proof.
  intros Hc Hs Ha Hf. unfold collapseAccordion. rewrite Hc.
  rewrite decide_False by done.
  rewrite shouldAnimate_cancel, Ha, cancelCurrentRaf_idle by done.
  unfold raf, with_acc, with_sched, sched_set_frames. simpl. by rewrite Hf.
Qed.

Lemma expand_animated w c cw :
  contentEl (acc w) = Some c → contentElWrapper (acc w) = Some cw →
  state (acc w) ≠ Expanded →
  shouldAnimate w = true → frames (sched w) = [] →
  expandAccordion false w =
    with_sched (sched_set_frames
         [(nextHandle (sched w), ExpandOuter c cw)])
       (with_sched (λ s, {| frames := frames s;
                            nextHandle := nextHandle s + 1;
                            waiters := waiters s; now := now s |}) w).
Proof.
  intros Hc Hcw Hs Ha Hf. unfold expandAccordion. rewrite Hc, Hcw.
  rewrite decide_False by done.
  rewrite shouldAnimate_cancel, Ha, cancelCurrentRaf_idle by done.
  unfold raf, with_acc, with_sched, sched_set_frames. simpl. by rewrite Hf.
Qed.

Lemma completes_step c ev w x :
  completes c ev → waiters (sched w) = [x] → waiter_el x = c →
  waiter_deadline x ≤ now (sched w) + 2000 →
  step w ev =
    run_continuation (waiter_resume x)
      (with_sched (sched_set_waiters [])
         (match ev with
          | Elapse dt => with_sched (sched_set_now (now (sched w) + Z.max 0 dt)) w
          | _ => w
          end)).
Proof.
  intros [->|(dt & Hdt & ->)] Hw He Hd; simpl.
  - unfold transitionEnd. apply settle_one; [done|].
    by apply bool_decide_eq_true.
  - unfold elapse. apply settle_one; [done|].
    apply bool_decide_eq_true. lia.
Qed.

(** C3 (as amended): an animated collapse of an Expanded panel with no
    frame and no transition wait of an earlier command in flight.  The
    call itself leaves the state Expanded and requests one
    frame, whose handle it records.  That frame measures the content
    element and sets its max-height to the measured height, the state
    still Expanded.  The nested frame starts the wait for the end of the
    transition, due 2000 time units later at the latest, and writes
    Collapsing.  The transition-end signal, or 2000 time units passing
    without it, writes Collapsed and removes the max-height.  Collapsing
    and Collapsed are the only states written, in this order. *)
Theorem animated_collapse_sequence (w : World) (c : nat) (ev : Event) :
  contentEl (acc w) = Some c →
  state (acc w) = Expanded →
  shouldAnimate w = true →
  idle w →
  completes c ev →
  let w1 := collapseAccordion false w in
  let w2 := animationFrame w1 in
  let w3 := animationFrame w2 in
  let w4 := step w3 ev in
  (state (acc w1) = Expanded
   ∧ frames (sched w1) = [(nextHandle (sched w), CollapseOuter c)]
   ∧ currentRaf (acc w1) = Some (nextHandle (sched w))
   ∧ page w1 = page w
   ∧ trace w1 = trace w)
  ∧ (state (acc w2) = Expanded
     ∧ maxHeights (page w2) !! c = Some (offsetHeight c w)
     ∧ waiters (sched w2) = []
     ∧ trace w2 = trace w)
  ∧ (state (acc w3) = Collapsing
     ∧ maxHeights (page w3) !! c = Some (offsetHeight c w)
     ∧ frames (sched w3) = []
     ∧ waiters (sched w3) =
         [{| waiter_el := c; waiter_deadline := now (sched w3) + 2000;
             waiter_resume := CollapseResume c |}]
     ∧ trace w3 = trace w ++ [StateWrite Collapsing])
  ∧ (state (acc w4) = Collapsed
     ∧ maxHeights (page w4) !! c = None
     ∧ idle w4
     ∧ trace w4 = trace w ++ [StateWrite Collapsing; StateWrite Collapsed]).
Proof.
  intros Hc Hs Ha [Hf Hw] Hev w1 w2 w3 w4.
  assert (H1 : w1 = collapseAccordion false w) by done.
  rewrite (collapse_animated w c) in H1 by (try done; by rewrite Hs).
  assert (H2 : w2 = animationFrame w1) by done.
  rewrite (animationFrame_one w1 (nextHandle (sched w)) (CollapseOuter c))
    in H2 by (by rewrite H1).
  assert (H3 : w3 = animationFrame w2) by done.
  rewrite (animationFrame_one w2 (nextHandle (sched w) + 1) (CollapseInner c))
    in H3 by (by rewrite H2, H1).
  assert (H4 : w4 = step w3 ev) by done.
  rewrite (completes_step c ev w3
             {| waiter_el := c; waiter_deadline := now (sched w) + 2000;
                waiter_resume := CollapseResume c |})
    in H4 by (rewrite ?H3, ?H2, ?H1; simpl; rewrite ?Hw; done || lia).
  clearbody w1 w2 w3 w4.
  split; [|split; [|split]].
  - subst w1. simpl. by rewrite Hs.
  - subst w2 w1. simpl. rewrite lookup_insert_eq, Hs, Hw. done.
  - subst w3 w2 w1. simpl. rewrite lookup_insert_eq, Hw. done.
  - subst w4. simpl. rewrite lookup_delete_eq.
    split; [done|]. split; [done|]. split.
    + split; simpl; [|done]. destruct ev; subst; done.
    + destruct ev; subst; simpl; by rewrite <- app_assoc.
Qed.

(** ** Following the group *)

Lemma ends_completes content c ev :
  ends_transition content ev → content = Some c → completes c ev.
Proof.
  intros [(dt & ? & ->)|(c' & -> & ->)] Hc.
  - right. eauto.
  - left. congruence.
Qed.

Lemma quiet_settles u content ev :
  idle u → ends_transition content ev →
  let u' := run [AnimationFrame; AnimationFrame; ev] u in
  state (acc u') = state (acc u) ∧ idle u' ∧ stable u u'.
Proof.
  intros [Hf Hw] Hev. simpl.
  rewrite !animationFrame_none by (by rewrite ?animationFrame_none).
  destruct Hev as [(dt & ? & ->)|(c' & _ & ->)]; simpl.
  - unfold elapse. rewrite settle_none by done. by repeat split.
  - unfold transitionEnd. rewrite settle_none by done. by repeat split.
Qed.

Lemma expand_frames_settle u h c cw ev :
  frames (sched u) = [(h, ExpandOuter c cw)] → waiters (sched u) = [] →
  completes c ev →
  let u' := run [AnimationFrame; AnimationFrame; ev] u in
  state (acc u') = Expanded ∧ idle u' ∧ stable u u'.
Proof.
  intros Hf Hw Hev. simpl.
  rewrite (animationFrame_one u h (ExpandOuter c cw)) by done.
  set (u1 := run_callback _ _).
  rewrite (animationFrame_one u1 (nextHandle (sched u)) (ExpandInner c cw))
    by done.
  set (u2 := run_callback _ _).
  rewrite (completes_step c ev u2
             {| waiter_el := c; waiter_deadline := now (sched u) + 2000;
                waiter_resume := ExpandResume c |})
    by (subst u2 u1; simpl; rewrite ?Hw; done || lia).
  subst u2 u1. simpl. split; [done|].
  split; [|by destruct ev]. split; simpl; [|done]. by destruct ev.
Qed.

Lemma collapse_frames_settle u h c ev :
  frames (sched u) = [(h, CollapseOuter c)] → waiters (sched u) = [] →
  completes c ev →
  let u' := run [AnimationFrame; AnimationFrame; ev] u in
  state (acc u') = Collapsed ∧ idle u' ∧ stable u u'.
Proof.
  intros Hf Hw Hev. simpl.
  rewrite (animationFrame_one u h (CollapseOuter c)) by done.
  set (u1 := run_callback _ _).
  rewrite (animationFrame_one u1 (nextHandle (sched u)) (CollapseInner c))
    by done.
  set (u2 := run_callback _ _).
  rewrite (completes_step c ev u2
             {| waiter_el := c; waiter_deadline := now (sched u) + 2000;
                waiter_resume := CollapseResume c |})
    by (subst u2 u1; simpl; rewrite ?Hw; done || lia).
  subst u2 u1. simpl. split; [done|].
  split; [|by destruct ev]. split; simpl; [|done]. by destruct ev.
Qed.

Lemma stable_trans u v w : stable u v → stable v w → stable u w.
Proof. unfold stable. intros (?&?&?&?) (?&?&?&?). repeat split; congruence. Qed.

Lemma with_acc_id w : with_acc (λ a, a) w = w.
Proof. by destruct w. Qed.

(** [updateState] is the command for the open-set, then a flag update. *)
Lemma updateState_shape init u :
  accordionGroupEl (acc u) = RefElement →
  ∃ g, flag_update g
       ∧ updateState init u =
           with_acc g (issue (command_for (group_value (group (page u)))
                                          (value (acc u))) init u).
Proof.
  intros Hg. unfold updateState, command_for. rewrite Hg.
  destruct (is_open _ _); simpl.
  - eexists. split; [|done]. done.
  - set (x := collapseAccordion init u).
    destruct (getNextSibling x ≫= sibling_value) as [nv|];
      [set (g1 := acc_set_isPrevious _)|];
      (match goal with
       | |- context [getPreviousSibling ?y ≫= sibling_value] =>
           destruct (getPreviousSibling y ≫= sibling_value) as [pv|]
       end).
    + exists (λ a, acc_set_isNext
                     (is_open (group_value (group (page u))) pv) (g1 a)).
      split; done.
    + exists g1. split; done.
    + eexists. split; [|done]. done.
    + exists (λ a, a). split; [done|]. by rewrite with_acc_id.
Qed.

(** A non-initial command issued when nothing is in flight either leaves
    the goal state with nothing in flight, or leaves one requested frame,
    the outer callback of its animation. *)
Lemma issue_when_idle c u :
  idle u →
  stable u (issue c false u)
  ∧ waiters (sched (issue c false u)) = []
  ∧ ((frames (sched (issue c false u)) = []
      ∧ state (acc (issue c false u)) = goal c)
     ∨ ∃ ce cw, contentEl (acc u) = Some ce
         ∧ frames (sched (issue c false u)) =
             [(nextHandle (sched u),
               match c with
               | CmdExpand => ExpandOuter ce cw
               | CmdCollapse => CollapseOuter ce
               end)]).
Proof.
  intros [Hf Hw].
  destruct (decide (state (acc u) = goal c)) as [Hs|Hs].
  { destruct (issue_at_goal c u Hs) as (Ha & Hp & Hsc & _).
    unfold stable. rewrite Ha, Hp, Hsc. repeat split; try done.
    by left. }
  destruct (shouldAnimate u) eqn:Han.
  - destruct c; unfold issue, goal in *.
    + destruct (contentEl (acc u)) as [ce|] eqn:Hc;
        [destruct (contentElWrapper (acc u)) as [cw|] eqn:Hcw|].
      * rewrite (expand_animated u ce cw) by done.
        repeat split; try done. right. by exists ce, cw.
      * rewrite expand_direct by auto. repeat split; try done. by left.
      * rewrite expand_direct by auto. repeat split; try done. by left.
    + destruct (contentEl (acc u)) as [ce|] eqn:Hc.
      * rewrite (collapse_animated u ce) by done.
        repeat split; try done. right. by exists ce, ce.
      * rewrite collapse_direct by auto. repeat split; try done. by left.
  - destruct (issue_without_animation c false u Han) as [[-> ?]|[->| ->]];
      [done|..]; rewrite ?cancelCurrentRaf_idle by done;
      repeat split; try done; by left.
Qed.

Lemma goal_command_for gv v :
  goal (command_for gv v) = if is_open gv v then Expanded else Collapsed.
Proof. unfold command_for. by destruct (is_open gv v). Qed.





(** ** Commands that overtake each other *)


(** C2, evaluated: an expand command followed at once by a collapse
    command, on a panel that is Collapsing.  The expand requests its
    outer frame under handle 3 but records no handle ([currentRaf] still
    holds 1, from the earlier collapse), so the collapse cancels nothing
    and requests its own frame 4: two animation sequences are pending.
    On the next paint frame the body of the stale expand runs first (it
    writes Expanding) and both sequences go on to their nested frames and
    both await the transition.  In the opposite order, collapse then
    expand, the collapse's recorded frame is cancelled and only the
    expand's frame is pending. *)
Theorem stale_expand_frame_not_cancelled :
  state (acc collapsing_panel) = Collapsing
  ∧ shouldAnimate collapsing_panel = true
  ∧ (frames (sched (expandAccordion false collapsing_panel))
       = [(3, ExpandOuter 10 11)]
     ∧ currentRaf (acc (expandAccordion false collapsing_panel)) = Some 1)
  ∧ frames (sched (collapseAccordion false
                     (expandAccordion false collapsing_panel)))
      = [(3, ExpandOuter 10 11); (4, CollapseOuter 10)]
  ∧ run [GroupValueChange (ValueArray ["a"]);
         GroupValueChange (ValueArray ["b"])] collapsing_panel
      = collapseAccordion false
          (expandAccordion false
             (set_group_value (ValueArray ["b"]) collapsing_panel))
  ∧ (let w := animationFrame (collapseAccordion false
                 (expandAccordion false collapsing_panel)) in
     trace w = trace collapsing_panel ++ [StateWrite Expanding]
     ∧ frames (sched w) = [(5, ExpandInner 10 11); (6, CollapseInner 10)])
  ∧ (let w := animationFrame (animationFrame (collapseAccordion false
                 (expandAccordion false collapsing_panel))) in
     waiter_resume <$> waiters (sched w)
       = [CollapseResume 10; ExpandResume 10; CollapseResume 10])
  ∧ frames (sched (expandAccordion false
                     (collapseAccordion false expanding_panel)))
      = [(4, ExpandOuter 10 11)].
Proof. vm_compute. repeat split. Qed.

(** C3 fails as stated: an animated collapse (the one the notification
    of the open-set ["b"] starts) of an Expanded panel on which the wait
    of an earlier expand is still pending.  When the
    transition-end signal arrives, the stale wait resumes first and
    writes Expanded, then the collapse's own wait writes Collapsed: the
    states written are Collapsing, Expanded, Collapsed. *)
Lemma collapse_amid_stale_wait :
  state (acc expanded_with_stale_wait) = Expanded
  ∧ contentEl (acc expanded_with_stale_wait) = Some 10%nat
  ∧ shouldAnimate expanded_with_stale_wait = true
  ∧ frames (sched expanded_with_stale_wait) = []
  ∧ waiter_resume <$> waiters (sched expanded_with_stale_wait)
      = [ExpandResume 10]
  ∧ sched (run [GroupValueChange (ValueArray ["b"])] expanded_with_stale_wait)
      = sched (collapseAccordion false expanded_with_stale_wait)
  ∧ frames (sched (collapseAccordion false expanded_with_stale_wait))
      = [(3, CollapseOuter 10)]
  ∧ trace (run [AnimationFrame; AnimationFrame; TransitionEnd 10]
             (collapseAccordion false expanded_with_stale_wait))
      = trace expanded_with_stale_wait
        ++ [StateWrite Collapsing; StateWrite Expanded; StateWrite Collapsed].
Proof. vm_compute. repeat split. Qed.

(** C7 fails as stated: panel "b" is not in the open-set, the update
    runs on the collapse path, and yet [isNext] is set from nothing.  With
    no element before the host, and likewise with an accordion there
    whose value is undefined, the flag keeps the value true it took
    while panel "a" was open, although the open-set is empty. *)
Lemma flag_outlives_neighbour :
  isNext (acc (run [Connect] (fresh "b" (divided_page (ValueArray ["a"])))))
    = true
  ∧ (group_value (group (page after_neighbour_left)) = ValueArray []
     ∧ el (page after_neighbour_left) ≫= previousElementSibling = None
     ∧ state (acc after_neighbour_left) = Collapsed
     ∧ isNext (acc after_neighbour_left) = true)
  ∧ (group_value (group (page after_neighbour_reset)) = ValueArray []
     ∧ (el (page after_neighbour_reset) ≫= previousElementSibling)
         ≫= sibling_value = None
     ∧ isNext (acc after_neighbour_reset) = true).
Proof. vm_compute. repeat split. Qed.

(** ** The theorems at concrete inputs *)


Lemma animated_collapse_witness :
  contentEl (acc (attached (ValueArray ["a"]))) = Some 10%nat
  ∧ state (acc (attached (ValueArray ["a"]))) = Expanded
  ∧ shouldAnimate (attached (ValueArray ["a"])) = true
  ∧ idle (attached (ValueArray ["a"]))
  ∧ completes 10 (Elapse 2000)
  ∧ state (acc (step (animationFrame (animationFrame
             (collapseAccordion false (attached (ValueArray ["a"])))))
             (Elapse 2000))) = Collapsed.
Proof.
  assert (Hc : completes 10 (Elapse 2000)).
  { right. exists 2000. split; [lia|reflexivity]. }
  assert (Hi : idle (attached (ValueArray ["a"]))) by (split; reflexivity).
  repeat (split; [first [reflexivity | exact Hc | exact Hi]|]).
  exact (proj1 (proj2 (proj2 (proj2 (animated_collapse_sequence
    (attached (ValueArray ["a"])) 10 (Elapse 2000)
    eq_refl eq_refl eq_refl Hi Hc))))).
Defined.


Lemma command_in_goal_state_witness :
  state (acc (attached (ValueArray ["a"]))) = goal CmdExpand
  ∧ sched (issue CmdExpand false (attached (ValueArray ["a"])))
      = sched (attached (ValueArray ["a"])).
Proof.
  split; [reflexivity|].
  exact (proj1 (proj2 (proj2 (command_in_goal_state_is_noop CmdExpand
    (attached (ValueArray ["a"])) eq_refl)))).
Defined.

Lemma no_group_witness :
  closest_accordion_group (fresh "a" lone_page) ≠ RefElement
  ∧ state (acc (run [Connect; Render 10 11;
                     GroupValueChange (ValueArray ["a"]); Click;
                     AnimationFrame; Elapse 3000]
                    (fresh "a" lone_page))) = Collapsed.
Proof.
  assert (Hc : closest_accordion_group (fresh "a" lone_page) ≠ RefElement)
    by (simpl; discriminate).
  split; [exact Hc|].
  exact (proj1 (proj2 (proj2 (proj2 (no_group_stays_collapsed "a" lone_page
    [Render 10 11; GroupValueChange (ValueArray ["a"]); Click;
     AnimationFrame; Elapse 3000] Hc))))).
Defined.

Lemma unrendered_command_witness :
  (contentEl (acc (run [Connect] (fresh "a" (sample_page (ValueArray [])))))
     = None
   ∨ (CmdExpand = CmdExpand
      ∧ contentElWrapper
          (acc (run [Connect] (fresh "a" (sample_page (ValueArray [])))))
        = None))
  ∧ state (acc (issue CmdExpand false
                  (run [Connect] (fresh "a" (sample_page (ValueArray []))))))
      = Expanded.
Proof.
  assert (H : contentEl
                (acc (run [Connect] (fresh "a" (sample_page (ValueArray [])))))
                = None
              ∨ (CmdExpand = CmdExpand
                 ∧ contentElWrapper
                     (acc (run [Connect]
                             (fresh "a" (sample_page (ValueArray [])))))
                   = None))
    by (left; reflexivity).
  split; [exact H|].
  exact (proj1 (unrendered_command_is_direct CmdExpand false
    (run [Connect] (fresh "a" (sample_page (ValueArray [])))) H)).
Defined.

(** ** More on animated commands *)

(** An animated expand of a panel that is not Expanded, with no frame and
    no transition wait in flight.  The call leaves the state and
    [currentRaf] as they were and requests one frame.  That frame writes
    Expanding and requests the nested frame, whose handle it records.
    The nested frame measures the content wrapper, starts the wait for
    the end of the transition (due within 2000 time units) and sets the
    content's max-height to the measured height.  The end of the
    transition writes Expanded and removes the max-height. *)
Theorem animated_expand_sequence (w : World) (c cw : nat) (ev : Event) :
  contentEl (acc w) = Some c →
  contentElWrapper (acc w) = Some cw →
  state (acc w) ≠ Expanded →
  shouldAnimate w = true →
  idle w →
  completes c ev →
  let w1 := expandAccordion false w in
  let w2 := animationFrame w1 in
  let w3 := animationFrame w2 in
  let w4 := step w3 ev in
  (state (acc w1) = state (acc w)
   ∧ frames (sched w1) = [(nextHandle (sched w), ExpandOuter c cw)]
   ∧ currentRaf (acc w1) = currentRaf (acc w)
   ∧ page w1 = page w
   ∧ trace w1 = trace w)
  ∧ (state (acc w2) = Expanding
     ∧ frames (sched w2) = [(nextHandle (sched w) + 1, ExpandInner c cw)]
     ∧ currentRaf (acc w2) = Some (nextHandle (sched w) + 1)
     ∧ page w2 = page w
     ∧ trace w2 = trace w ++ [StateWrite Expanding])
  ∧ (state (acc w3) = Expanding
     ∧ maxHeights (page w3) !! c = Some (offsetHeight cw w)
     ∧ frames (sched w3) = []
     ∧ waiters (sched w3) =
         [{| waiter_el := c; waiter_deadline := now (sched w3) + 2000;
             waiter_resume := ExpandResume c |}]
     ∧ trace w3 = trace w ++ [StateWrite Expanding])
  ∧ (state (acc w4) = Expanded
     ∧ maxHeights (page w4) !! c = None
     ∧ idle w4
     ∧ trace w4 = trace w ++ [StateWrite Expanding; StateWrite Expanded]).
Proof.
  intros Hc Hcw Hs Ha [Hf Hw] Hev w1 w2 w3 w4.
  assert (H1 : w1 = expandAccordion false w) by done.
  rewrite (expand_animated w c cw) in H1 by done.
  assert (H2 : w2 = animationFrame w1) by done.
  rewrite (animationFrame_one w1 (nextHandle (sched w)) (ExpandOuter c cw))
    in H2 by (by rewrite H1).
  assert (H3 : w3 = animationFrame w2) by done.
  rewrite (animationFrame_one w2 (nextHandle (sched w) + 1) (ExpandInner c cw))
    in H3 by (by rewrite H2, H1).
  assert (H4 : w4 = step w3 ev) by done.
  rewrite (completes_step c ev w3
             {| waiter_el := c; waiter_deadline := now (sched w) + 2000;
                waiter_resume := ExpandResume c |})
    in H4 by (rewrite ?H3, ?H2, ?H1; simpl; rewrite ?Hw; done || lia).
  clearbody w1 w2 w3 w4.
  split; [|split; [|split]].
  - by subst w1.
  - by subst w2 w1.
  - subst w3 w2 w1. simpl. rewrite lookup_insert_eq, Hw. done.
  - subst w4. simpl. rewrite lookup_delete_eq.
    split; [done|]. split; [done|]. split.
    + split; simpl; [|done]. destruct ev; subst; done.
    + destruct ev; subst; simpl; by rewrite <- app_assoc.
Qed.

(** The frame an animated collapse requests is recorded in [currentRaf],
    and the next command that is not stopped by a guard cancels it: on a
    panel in a transient state, whatever command follows the collapse
    before the frame runs, that frame is no longer pending afterwards. *)
Theorem pending_collapse_is_cancelled
    (next : Command) (w : World) (c cw : nat) :
  contentEl (acc w) = Some c →
  contentElWrapper (acc w) = Some cw →
  state (acc w) = Collapsing ∨ state (acc w) = Expanding →
  shouldAnimate w = true →
  let h := nextHandle (sched w) in
  let w1 := collapseAccordion false w in
  (h, CollapseOuter c) ∈ frames (sched w1)
  ∧ currentRaf (acc w1) = Some h
  ∧ ∀ cb, (h, cb) ∉ frames (sched (issue next false w1)).
Proof.
  intros Hc Hcw Hs Ha h w1.
  assert (Hnc : state (acc w) ≠ Collapsed) by (destruct Hs; congruence).
  assert (H1 : w1 =
    with_acc (acc_set_currentRaf (Some h))
      (raf (CollapseOuter c) (cancelCurrentRaf w)).2).
  { subst w1. unfold collapseAccordion. rewrite Hc.
    rewrite decide_False by done. rewrite shouldAnimate_cancel, Ha.
    unfold raf, h. simpl.
    by destruct (cancelCurrentRaf_rest w) as (-> & _). }
  clearbody w1. subst w1. split; [|split; [done|]].
  - simpl. apply elem_of_app. right. apply list_elem_of_singleton.
    unfold h. by destruct (cancelCurrentRaf_rest w) as (-> & _).
  - set (w1 := with_acc _ _).
    assert (Hs1 : state (acc w1) = state (acc w))
      by (simpl; by rewrite cancelCurrentRaf_acc).
    assert (Hc1 : contentEl (acc w1) = Some c)
      by (simpl; by rewrite cancelCurrentRaf_acc).
    assert (Hcw1 : contentElWrapper (acc w1) = Some cw)
      by (simpl; by rewrite cancelCurrentRaf_acc).
    assert (Hr1 : currentRaf (acc w1) = Some h) by done.
    assert (Hn1 : nextHandle (sched w1) = h + 1).
    { simpl. unfold h. by destruct (cancelCurrentRaf_rest w) as (-> & _). }
    assert (Hcancel : ∀ cb, (h, cb) ∉ frames (sched (cancelCurrentRaf w1))).
    { intros cb. unfold cancelCurrentRaf. rewrite Hr1. simpl.
      intros Hin. apply list_elem_of_filter in Hin as [Hne _]. by apply Hne. }
    assert (Hcn : nextHandle (sched (cancelCurrentRaf w1)) = h + 1).
    { destruct (cancelCurrentRaf_rest w1) as (-> & _). done. }
    clearbody w1. intros cb.
    destruct next; simpl; unfold expandAccordion, collapseAccordion;
      rewrite ?Hc1, ?Hcw1; rewrite decide_False by (destruct Hs; congruence);
      destruct (shouldAnimate (cancelCurrentRaf w1)); simpl;
      rewrite ?Hcn; try apply Hcancel;
      intros Hin; apply elem_of_app in Hin as [Hin|Hin];
      try (by apply Hcancel in Hin);
      apply list_elem_of_singleton in Hin; injection Hin; lia.
Qed.

(** ** More on following the group *)

(** A notification that leaves this panel's membership as its state
    already shows it (another panel was toggled, say) changes neither the
    state nor the scheduler nor any style: nothing is requested, nothing
    is cancelled.  With both content refs set no state is written at
    all. *)
Theorem unchanged_membership_is_inert (w : World) (gv : GroupValue) :
  state (acc w) = (if is_open gv (value (acc w)) then Expanded else Collapsed) →
  let w' := step w (GroupValueChange gv) in
  state (acc w') = state (acc w)
  ∧ sched w' = sched w
  ∧ group_value (group (page w')) = gv
  ∧ maxHeights (page w') = maxHeights (page w)
  ∧ (trace w' = trace w
     ∨ contentEl (acc w) = None ∨ contentElWrapper (acc w) = None).
Proof.
  intros Hs. simpl. unfold groupValueChange.
  set (u := set_group_value gv w).
  destruct (group_listening (group (page u))); [|by auto 6].
  unfold updateState.
  destruct (accordionGroupEl (acc u)) eqn:Hg; [by auto 6..|].
  destruct (updateState_shape false u Hg) as (g & Hgf & Heq).
  unfold updateState in Heq. rewrite Hg in Heq. rewrite Heq. clear Heq.
  change (group_value (group (page u))) with gv.
  change (value (acc u)) with (value (acc w)).
  set (c := command_for gv (value (acc w))).
  assert (Hgoal : state (acc u) = goal c).
  { unfold c. rewrite goal_command_for. exact Hs. }
  destruct (issue_at_goal c u Hgoal) as (Ha & Hp & Hsc & Ht).
  destruct (Hgf (acc (issue c false u))) as (_ & _ & Hst & _).
  change (state (acc (with_acc g (issue c false u))))
    with (state (g (acc (issue c false u)))).
  rewrite Hst, Ha.
  change (sched (with_acc g (issue c false u))) with (sched (issue c false u)).
  change (page (with_acc g (issue c false u))) with (page (issue c false u)).
  change (trace (with_acc g (issue c false u))) with (trace (issue c false u)).
  rewrite Hsc, Hp. auto 6.
Qed.

(** Attaching inside a group takes the group as [accordionGroupEl],
    registers the listener, and puts the state at once where the group's
    open-set asks, leaving the scheduler alone.  An instance with nothing
    in flight, a new one for example, is then in step with its group. *)
Theorem attach_in_group (w : World) :
  closest_accordion_group w = RefElement →
  let w' := connectedCallback w in
  accordionGroupEl (acc w') = RefElement
  ∧ group_listening (group (page w')) = true
  ∧ state (acc w') = target w
  ∧ target w' = target w
  ∧ sched w' = sched w
  ∧ (idle w → synced w').
Proof.
  intros Hcl. simpl. unfold connectedCallback. rewrite Hcl.
  set (u := with_acc (acc_set_group RefElement) w).
  assert (Hg : accordionGroupEl (acc u) = RefElement) by done.
  destruct (updateState_shape true u Hg) as (g & Hgf & ->).
  rewrite issue_direct by auto.
  set (c := command_for _ _).
  set (x := set_state (goal c) u).
  assert (Hxs : state (acc x) = target w).
  { unfold x, c. simpl. by rewrite goal_command_for. }
  assert (Hxv : value (acc x) = value (acc w)) by done.
  assert (Hxg : accordionGroupEl (acc x) = RefElement) by done.
  assert (Hxp : page x = page w) by done.
  assert (Hxc : sched x = sched w) by done.
  clearbody x. clear c Hg. clearbody u.
  destruct (Hgf (acc x)) as (Hg' & _ & Hs' & Hv').
  set (y := set_listening true (with_acc g x)).
  assert (Hyg : accordionGroupEl (acc y) = RefElement)
    by (unfold y; simpl; congruence).
  assert (Hys : state (acc y) = target w)
    by (unfold y; simpl; congruence).
  assert (Hyv : value (acc y) = value (acc w))
    by (unfold y; simpl; congruence).
  assert (Hyl : group_listening (group (page y)) = true) by done.
  assert (Hygv : group_value (group (page y)) = group_value (group (page w)))
    by (unfold y; simpl; by rewrite Hxp).
  assert (Hyc : sched y = sched w) by (unfold y; simpl; congruence).
  clearbody y.
  assert (Htg : target y = target w).
  { unfold target. by rewrite Hygv, Hyv. }
  split; [done|]. split; [done|]. split; [done|]. split; [done|].
  split; [done|]. intros [Hf Hw].
  unfold synced, idle. rewrite Hyc, Htg. done.
Qed.

(** Detaching from a group removes the listener and nothing else: the
    fields (the group reference among them), the scheduler with any
    frame still pending, and the trace stay.  A later change of the
    group's value no longer reaches the instance. *)
Theorem detach_stops_notifications (w : World) (gv : GroupValue) :
  accordionGroupEl (acc w) = RefElement →
  let w' := disconnectedCallback w in
  group_listening (group (page w')) = false
  ∧ acc w' = acc w
  ∧ sched w' = sched w
  ∧ trace w' = trace w
  ∧ step w' (GroupValueChange gv) = set_group_value gv w'.
Proof.
  intros Hg. simpl. unfold disconnectedCallback. rewrite Hg. done.
Qed.

Lemma update_settles u ev :
  accordionGroupEl (acc u) = RefElement → idle u →
  ends_transition (contentEl (acc u)) ev →
  let y := run [AnimationFrame; AnimationFrame; ev] (updateState false u) in
  state (acc y) = target u ∧ idle y ∧ stable u y.
Proof.
  intros Hg Hi Hev.
  destruct (updateState_shape false u Hg) as (g & Hgf & ->).
  set (c := command_for _ _).
  assert (Hgoal : goal c = target u) by apply goal_command_for.
  destruct (issue_when_idle c u Hi) as (Hst & Hwt & Hcases).
  set (x := issue c false u) in *.
  assert (Hsx : stable u (with_acc g x)).
  { destruct Hst as (?&?&?&?). destruct (Hgf (acc x)) as (?&?&?&?).
    repeat split; simpl; congruence. }
  rewrite <- Hgoal. clearbody c.
  destruct Hcases as [[Hfr Hs]|(ce & cw & Hce & Hfr)].
  - destruct (quiet_settles (with_acc g x) (contentEl (acc u)) ev)
      as (Hs' & Hi' & Hst'); [by split|done|].
    cbv zeta. split; [|split; [done|by eapply stable_trans]].
    rewrite Hs'. simpl. destruct (Hgf (acc x)) as (_&_&->&_). done.
  - assert (Hcomp : completes ce ev) by (by eapply ends_completes).
    destruct c.
    + destruct (expand_frames_settle (with_acc g x) _ ce cw ev Hfr)
        as (Hs' & Hi' & Hst'); [done..|].
      split; [done|split; [done|by eapply stable_trans]].
    + destruct (collapse_frames_settle (with_acc g x) _ ce ev Hfr)
        as (Hs' & Hi' & Hst'); [done..|].
      split; [done|split; [done|by eapply stable_trans]].
Qed.

(** Setting the [value] prop of an attached instance with nothing in
    flight makes it follow the group under its new value: after two
    paint frames and the end of the transition the state is Expanded when
    the new value is in the group's open-set and Collapsed when it is
    not, and nothing is left in flight. *)
Theorem value_change_settles (w : World) (v : string) (ev : Event) :
  accordionGroupEl (acc w) = RefElement →
  idle w →
  ends_transition (contentEl (acc w)) ev →
  let w' := run [AnimationFrame; AnimationFrame; ev] (valueChanged v w) in
  value (acc w') = v
  ∧ idle w'
  ∧ state (acc w') =
      if is_open (group_value (group (page w))) v then Expanded else Collapsed.
Proof.
  intros Hg Hi Hev. unfold valueChanged.
  set (u := with_acc (acc_set_value v) w).
  destruct (update_settles u ev Hg Hi Hev) as (Hs & Hi' & (_ & Hv & _ & _)).
  split; [exact Hv|]. split; [exact Hi'|]. exact Hs.
Qed.

(** ** What the instance leaves to the group *)

Lemma issue_page c init w :
  group (page (issue c init w)) = group (page w)
  ∧ el (page (issue c init w)) = el (page w).
Proof.
  destruct c; simpl; unfold expandAccordion, collapseAccordion, raf;
    repeat case_match; simpl; rewrite ?cancelCurrentRaf_page; done.
Qed.

Lemma updateState_group init w :
  group (page (updateState init w)) = group (page w).
Proof.
  unfold updateState. destruct (accordionGroupEl (acc w)); try done.
  destruct (is_open _ _).
  - apply (issue_page CmdExpand).
  - repeat case_match; simpl; apply (issue_page CmdCollapse).
Qed.

Lemma run_callback_group cb w :
  group (page (run_callback cb w)) = group (page w).
Proof. by destruct cb. Qed.

Lemma run_continuation_group k w :
  group (page (run_continuation k w)) = group (page w).
Proof. by destruct k. Qed.

Lemma run_frames_group hs : ∀ w,
  group (page (run_frames hs w)) = group (page w).
Proof.
  induction hs as [|h hs IH]; intros w; [done|]. simpl.
  destruct (pending_frame h w); rewrite IH; [|done].
  by rewrite run_callback_group.
Qed.

Lemma resume_all_group ws : ∀ w,
  group (page (foldl (λ w x, run_continuation (waiter_resume x) w) w ws))
  = group (page w).
Proof.
  induction ws as [|x ws IH]; intros w; [done|]. simpl.
  by rewrite IH, run_continuation_group.
Qed.

Lemma settle_group due w : group (page (settle due w)) = group (page w).
Proof. unfold settle. by rewrite resume_all_group. Qed.

(** The open-set and the group's animation switch belong to the group:
    the group's own value change and a change of settings write them;
    no method, frame callback or resumed wait of the accordion does.
    Attaching and detaching change only whether the listener is
    registered, and a click only asks. *)
Theorem group_data_is_never_written (w : World) (ev : Event) :
  let g := group (page w) in
  let g' := group (page (step w ev)) in
  match ev with
  | GroupValueChange gv =>
      group_value g' = gv ∧ group_animated g' = group_animated g
      ∧ group_listening g' = group_listening g
  | Settings _ _ _ animated =>
      group_value g' = group_value g ∧ group_animated g' = animated
      ∧ group_listening g' = group_listening g
  | Connect | Disconnect =>
      group_value g' = group_value g ∧ group_animated g' = group_animated g
  | _ => g' = g
  end.
Proof.
  destruct ev; simpl.
  - unfold connectedCallback. destruct (closest_accordion_group w); try done.
    simpl. by rewrite updateState_group.
  - unfold disconnectedCallback. by destruct (accordionGroupEl (acc w)).
  - done.
  - unfold groupValueChange.
    destruct (group_listening (group (page (set_group_value gv w))));
      rewrite ?updateState_group; done.
  - unfold valueChanged. by rewrite updateState_group.
  - unfold toggleExpanded. by repeat case_match.
  - done.
  - unfold animationFrame. by rewrite run_frames_group.
  - unfold transitionEnd. by rewrite settle_group.
  - unfold elapse. by rewrite settle_group.
Qed.

(** An element next to the host that is not an [ion-accordion] is no
    neighbour: when the panel is not in the open-set, [updateState]
    leaves [isPrevious] as it was if the next element is of another tag,
    and [isNext] as it was if the previous element is. *)
Theorem other_tags_are_no_neighbours
    (init : bool) (w : World) (e : HostElement) :
  accordionGroupEl (acc w) = RefElement →
  is_open (group_value (group (page w))) (value (acc w)) = false →
  el (page w) = Some e →
  ((∀ s, nextElementSibling e = Some s → tagName s ≠ "ION-ACCORDION") →
   isPrevious (acc (updateState init w)) = isPrevious (acc w))
  ∧ ((∀ s, previousElementSibling e = Some s → tagName s ≠ "ION-ACCORDION") →
     isNext (acc (updateState init w)) = isNext (acc w)).
Proof.
  intros Hg Ho He.
  assert (Hnone : ∀ s, (∀ x, s = Some x → tagName x ≠ "ION-ACCORDION") →
                       accordion_sibling s = None).
  { intros [x|] Hx; [|done]. simpl. rewrite decide_False; [done|]. by apply Hx. }
  destruct (updateState_flags init w Hg Ho) as [Hn Hp].
  unfold getNextSibling, getPreviousSibling in *. rewrite He in *.
  split; intros Hs.
  - rewrite Hp, Hnone; done.
  - rewrite Hn, Hnone; done.
Qed.

(** ** The header's slotted item: reading and writing back *)

Lemma getSlotted_assigned h i x :
  getSlottedHeaderIonItem h = Some (i, x) →
  assigned h !! i = Some x ∧ slotted_tagName x = "ION-ITEM".
Proof.
  destruct h as [[[[[els|]]|]]|]; simpl; try done.
  intros H. apply list_find_Some in H as (? & ? & _). done.
Qed.

Lemma getSlotted_put h i x y :
  getSlottedHeaderIonItem h = Some (i, x) →
  slotted_tagName y = "ION-ITEM" →
  getSlottedHeaderIonItem (put_slotted i y h) = Some (i, y).
Proof.
  destruct h as [[[[[els|]]|]]|]; simpl; try done.
  intros H Hy. apply list_find_Some in H as (Hi & Hx & Hmin).
  apply list_find_Some. split; [|split; [done|]].
  - apply list_lookup_insert_eq. by eapply lookup_lt_Some.
  - intros j z Hj Hlt. rewrite list_lookup_insert_ne in Hj by lia.
    by eapply Hmin.
Qed.

Lemma put_put h i x y :
  put_slotted i y (put_slotted i x h) = put_slotted i y h.
Proof.
  destruct h as [[[[[els|]]|]]|]; simpl; try done.
  by rewrite list_insert_insert_eq.
Qed.

Lemma put_same h i x :
  getSlottedHeaderIonItem h = Some (i, x) → put_slotted i x h = h.
Proof.
  destruct h as [[[[[els|]]|]]|]; simpl; try done.
  intros H. apply list_find_Some in H as (Hi & _).
  by rewrite list_insert_id.
Qed.

Lemma assigned_put h i j x y :
  getSlottedHeaderIonItem h = Some (i, x) →
  assigned (put_slotted i y h) !! j =
    if decide (j = i) then Some y else assigned h !! j.
Proof.
  destruct h as [[[[[els|]]|]]|]; simpl; try done.
  intros H. apply list_find_Some in H as (Hi & _).
  case_decide as Hj.
  - subst. apply list_lookup_insert_eq. by eapply lookup_lt_Some.
  - by apply list_lookup_insert_ne.
Qed.

(** [getSlottedHeaderIonItem] answers with the first assigned element of
    tag ION-ITEM and with nothing when there is none: also when the
    header ref is unset, when it holds no slot, and when the slot has no
    [assignedElements]. *)
Theorem first_ion_item_is_found (h : option HeaderElement) :
  match getSlottedHeaderIonItem h with
  | Some (i, x) =>
      assigned h !! i = Some x
      ∧ slotted_tagName x = "ION-ITEM"
      ∧ Forall (λ y, slotted_tagName y ≠ "ION-ITEM") (take i (assigned h))
  | None => Forall (λ y, slotted_tagName y ≠ "ION-ITEM") (assigned h)
  end.
Proof.
  destruct h as [[[[[els|]]|]]|]; simpl; try by constructor.
  destruct (list_find _ els) as [[i x]|] eqn:H.
  - apply list_find_Some in H as (Hi & Hx & Hmin).
    split; [done|]. split; [done|].
    apply Forall_lookup. intros j y Hj.
    apply lookup_take_Some in Hj as [Hj Hlt]. by eapply Hmin.
  - by apply list_find_None in H.
Qed.

(** [setItemDefaults] makes the header's item a button without a detail
    arrow and gives it full lines only where no lines were chosen: lines
    set by the user stay.  Its descendants and its native button are as
    before, and so is every other assigned element. *)
Theorem item_defaults_keep_explicit_lines
    (h : option HeaderElement) (i : nat) (x : Slotted) :
  getSlottedHeaderIonItem h = Some (i, x) →
  ∃ y, getSlottedHeaderIonItem (setItemDefaults h) = Some (i, y)
       ∧ item_button y = true
       ∧ item_detail y = Some false
       ∧ item_lines y = Some (default "full" (item_lines x))
       ∧ item_descendants y = item_descendants x
       ∧ item_native_button y = item_native_button x
       ∧ ∀ j, j ≠ i → assigned (setItemDefaults h) !! j = assigned h !! j.
Proof.
  intros H. unfold setItemDefaults. rewrite H.
  destruct (getSlotted_assigned h i x H) as [_ Ht].
  eexists. split; [by apply (getSlotted_put h i x)|].
  simpl. repeat split; try done.
  - by destruct (item_lines x).
  - intros j Hj. rewrite (assigned_put h i j x) by done.
    by rewrite decide_False.
Qed.

(** Whatever the header holds, [setItemDefaults] run again changes
    nothing more. *)
Theorem item_defaults_idempotent (h : option HeaderElement) :
  setItemDefaults (setItemDefaults h) = setItemDefaults h.
Proof.
  unfold setItemDefaults at 2 3.
  destruct (getSlottedHeaderIonItem h) as [[i x]|] eqn:H.
  - destruct (getSlotted_assigned h i x H) as [_ Ht].
    unfold setItemDefaults.
    erewrite getSlotted_put by done. rewrite put_put. simpl.
    by destruct (item_lines x).
  - unfold setItemDefaults. by rewrite H.
Qed.

Lemma filter_nil_Forall {A} (P : A → Prop) `{∀ x, Decision (P x)} (l : list A) :
  filter P l = [] ↔ Forall (λ x, ¬ P x) l.
Proof.
  induction l as [|a l IH]; [by split; [constructor|]|].
  rewrite filter_cons, Forall_cons. case_decide; [|tauto].
  split; [done|]. intros [? _]. done.
Qed.

Lemma existingToggleIcon_count x :
  existingToggleIcon x = None ↔ toggle_icons x = 0%nat.
Proof.
  unfold existingToggleIcon, toggle_icons.
  rewrite fmap_None, list_find_None, length_zero_iff_nil.
  by rewrite filter_nil_Forall.
Qed.

Lemma slotToggleIcon_found slot icon h i x :
  getSlottedHeaderIonItem h = Some (i, x) →
  ∃ y, getSlottedHeaderIonItem (slotToggleIcon slot icon h) = Some (i, y)
       ∧ toggle_icons y = Nat.max 1 (toggle_icons x)
       ∧ item_descendants y =
           (if decide (toggle_icons x = 0%nat)
            then item_descendants x ++ [toggle_icon_element slot icon]
            else item_descendants x)
       ∧ item_button y = item_button x
       ∧ item_detail y = item_detail x
       ∧ item_lines y = item_lines x
       ∧ item_native_button y = item_native_button x.
Proof.
  intros H. unfold slotToggleIcon. rewrite H.
  destruct (getSlotted_assigned h i x H) as [_ Ht].
  destruct (existingToggleIcon x) eqn:He.
  - exists x. split; [done|].
    assert (Hn : toggle_icons x ≠ 0%nat).
    { intros Hz. apply existingToggleIcon_count in Hz. congruence. }
    rewrite decide_False by done. repeat split; try done. lia.
  - apply existingToggleIcon_count in He as Hz.
    eexists. split; [by apply (getSlotted_put h i x)|].
    rewrite decide_True by done. simpl. repeat split; try done.
    unfold toggle_icons in *. simpl.
    rewrite filter_app, length_app, Hz.
    rewrite filter_cons_True by (simpl; set_solver). done.
Qed.

(** After [slotToggleIcon] the header's item holds a toggle icon, and
    exactly as many as before unless it held none: then it holds one,
    appended last, in the slot and with the icon the component was
    given.  The item's own properties and its native button stay. *)
Theorem toggle_icon_is_slotted_once
    (slot icon : string) (h : option HeaderElement) (i : nat) (x : Slotted) :
  getSlottedHeaderIonItem h = Some (i, x) →
  ∃ y, getSlottedHeaderIonItem (slotToggleIcon slot icon h) = Some (i, y)
       ∧ toggle_icons y = Nat.max 1 (toggle_icons x)
       ∧ item_descendants y =
           (if decide (toggle_icons x = 0%nat)
            then item_descendants x ++ [toggle_icon_element slot icon]
            else item_descendants x)
       ∧ item_button y = item_button x
       ∧ item_detail y = item_detail x
       ∧ item_lines y = item_lines x
       ∧ item_native_button y = item_native_button x.
Proof. apply slotToggleIcon_found. Qed.

(** A second [slotToggleIcon], with whatever slot and icon, adds
    nothing: an item never gets two toggle icons from the accordion. *)
Theorem toggle_icon_idempotent
    (slot icon slot' icon' : string) (h : option HeaderElement) :
  slotToggleIcon slot' icon' (slotToggleIcon slot icon h)
  = slotToggleIcon slot icon h.
Proof.
  destruct (getSlottedHeaderIonItem h) as [[i x]|] eqn:H.
  - destruct (slotToggleIcon_found slot icon h i x H) as (y & Hy & Hn & _).
    unfold slotToggleIcon at 1. rewrite Hy.
    destruct (existingToggleIcon y) eqn:He; [done|].
    apply existingToggleIcon_count in He. lia.
  - unfold slotToggleIcon. rewrite H. by rewrite H.
Qed.

(** ** The aria-expanded projection *)

Lemma setAria_found e h i x b :
  getSlottedHeaderIonItem h = Some (i, x) →
  item_native_button x = Some b →
  ∃ y, getSlottedHeaderIonItem (setAria e h) = Some (i, y)
       ∧ setAria e h = put_slotted i y h
       ∧ item_native_button y =
           Some (<["aria-expanded" := if e then "true" else "false"]> b)
       ∧ item_button y = item_button x
       ∧ item_detail y = item_detail x
       ∧ item_lines y = item_lines x
       ∧ item_descendants y = item_descendants x.
Proof.
  intros H Hb. unfold setAria. rewrite H, Hb.
  destruct (getSlotted_assigned h i x H) as [_ Ht].
  eexists. split; [by apply (getSlotted_put h i x)|]. done.
Qed.

(** What [setAria] leaves to be read: with an item and a native button
    in it, the button's [aria-expanded] is "true" or "false" as asked;
    without the item or without the button nothing is written and
    nothing can be read. *)
Theorem aria_expanded_after_setAria (e : bool) (h : option HeaderElement) :
  aria_expanded (setAria e h) =
    match getSlottedHeaderIonItem h with
    | Some (_, x) =>
        match item_native_button x with
        | Some _ => Some (if e then "true" else "false")
        | None => None
        end
    | None => None
    end
  ∧ (aria_expanded (setAria e h) = None → setAria e h = h).
Proof.
  destruct (getSlottedHeaderIonItem h) as [[i x]|] eqn:H.
  - destruct (item_native_button x) as [b|] eqn:Hb.
    + destruct (setAria_found e h i x b H Hb) as (y & Hy & _ & Hyb & _).
      unfold aria_expanded. rewrite Hy, Hyb, lookup_insert_eq. done.
    + unfold setAria, aria_expanded. rewrite H, Hb, H, Hb. done.
  - unfold setAria, aria_expanded. rewrite H, H. done.
Qed.

(** [setAria] overwrites: of two calls only the later one counts. *)
Theorem setAria_last_wins (e1 e2 : bool) (h : option HeaderElement) :
  setAria e2 (setAria e1 h) = setAria e2 h.
Proof.
  destruct (getSlottedHeaderIonItem h) as [[i x]|] eqn:H.
  - destruct (item_native_button x) as [b|] eqn:Hb.
    + destruct (setAria_found e1 h i x b H Hb)
        as (y & Hy & Hput & Hyb & Hy1 & Hy2 & Hy3 & Hy4).
      unfold setAria at 1. rewrite Hy, Hyb, Hput, put_put.
      unfold setAria. rewrite H, Hb. f_equal.
      destruct (getSlotted_assigned _ _ _ Hy) as [_ Hyt].
      destruct (getSlotted_assigned _ _ _ H) as [_ Hxt].
      rewrite Hyt, Hxt, Hy1, Hy2, Hy3, Hy4, insert_insert_eq. done.
    + unfold setAria. rewrite H, Hb, H, Hb. done.
  - unfold setAria. rewrite H, H. done.
Qed.

(** Loading the component and letting its frame run: the header's item
    has become a button with a toggle icon, and its native button, if it
    is there, tells whether the panel is open (Expanded or Expanding) at
    the time of the frame. *)
Theorem load_prepares_header
    (slot icon : string) (w : World) (h : option HeaderElement)
    (i : nat) (x : Slotted) :
  getSlottedHeaderIonItem h = Some (i, x) →
  let h' := componentDidLoad_frame w (componentDidLoad_now slot icon h) in
  ∃ y, getSlottedHeaderIonItem h' = Some (i, y)
       ∧ item_button y = true
       ∧ item_detail y = Some false
       ∧ item_lines y = Some (default "full" (item_lines x))
       ∧ toggle_icons y = Nat.max 1 (toggle_icons x)
       ∧ aria_expanded h' =
           match item_native_button x with
           | Some _ =>
               Some (match state (acc w) with
                     | Expanded | Expanding => "true"
                     | Collapsed | Collapsing => "false"
                     end)
           | None => None
           end.
Proof.
  intros H. simpl. unfold componentDidLoad_frame, componentDidLoad_now.
  destruct (getSlotted_assigned h i x H) as [_ Ht].
  assert (H1 : ∃ y1, getSlottedHeaderIonItem (setItemDefaults h) = Some (i, y1)
     ∧ item_button y1 = true ∧ item_detail y1 = Some false
     ∧ item_lines y1 = Some (default "full" (item_lines x))
     ∧ item_descendants y1 = item_descendants x
     ∧ item_native_button y1 = item_native_button x).
  { unfold setItemDefaults. rewrite H.
    eexists. split; [by apply (getSlotted_put h i x)|].
    simpl. repeat split; try done. by destruct (item_lines x). }
  destruct H1 as (y1 & Hy1 & Hb1 & Hd1 & Hl1 & Hde1 & Hn1).
  destruct (slotToggleIcon_found slot icon _ i y1 Hy1)
    as (y2 & Hy2 & Hc2 & _ & Hb2 & Hd2 & Hl2 & Hn2).
  set (h2 := slotToggleIcon slot icon (setItemDefaults h)) in *.
  assert (Hcount : toggle_icons y1 = toggle_icons x)
    by (unfold toggle_icons; by rewrite Hde1).
  assert (Hst : (if expanded (state (acc w)) then "true" else "false") =
                match state (acc w) with
                | Expanded | Expanding => "true"
                | Collapsed | Collapsing => "false"
                end) by (by destruct (state (acc w))).
  destruct (item_native_button x) as [b|] eqn:Hb.
  - destruct (setAria_found (expanded (state (acc w))) h2 i y2 b Hy2)
      as (y3 & Hy3 & _ & Hn3 & Hb3 & Hd3 & Hl3 & Hde3); [congruence|].
    exists y3. split; [done|].
    unfold aria_expanded. rewrite Hy3, Hn3, lookup_insert_eq, Hst.
    repeat split; try congruence.
    unfold toggle_icons in *. rewrite Hde3. congruence.
  - exists y2.
    assert (Hsame : setAria (expanded (state (acc w))) h2 = h2).
    { unfold setAria. rewrite Hy2, Hn2, Hn1. done. }
    rewrite Hsame. split; [done|].
    unfold aria_expanded. rewrite Hy2, Hn2, Hn1.
    repeat split; congruence.
Qed.

Lemma aria_expanded_setAria_cases e h :
  aria_expanded (setAria e h) = None
  ∨ aria_expanded (setAria e h) = Some (if e then "true" else "false").
Proof.
  destruct (getSlottedHeaderIonItem h) as [[i x]|] eqn:H.
  - destruct (item_native_button x) as [b|] eqn:Hb.
    + destruct (setAria_found e h i x b H Hb) as (y & Hy & _ & Hyb & _).
      right. unfold aria_expanded. by rewrite Hy, Hyb, lookup_insert_eq.
    + left. unfold setAria, aria_expanded. by rewrite H, Hb, H, Hb.
  - left. unfold setAria, aria_expanded. by rewrite H, H.
Qed.

(** ** The host's classes and parts *)

Lemma host_class_state theme w h :
  let m := host_class (render_host theme w h) in
  m !! "accordion-expanding" = Some (bool_decide (state (acc w) = Expanding))
  ∧ m !! "accordion-expanded" = Some (bool_decide (state (acc w) = Expanded))
  ∧ m !! "accordion-collapsing" = Some (bool_decide (state (acc w) = Collapsing))
  ∧ m !! "accordion-collapsed" = Some (bool_decide (state (acc w) = Collapsed)).
Proof. simpl. repeat split; by simplify_map_eq. Qed.

(** Whatever the theme's name, the host carries exactly one of the four
    state classes, the one of the current state. *)
Theorem one_state_class (theme : string) (w : World)
    (h : option HeaderElement) :
  filter (λ k, host_class (render_host theme w h) !! k = Some true)
         state_classes
  = [match state (acc w) with
     | Expanding => "accordion-expanding"
     | Expanded => "accordion-expanded"
     | Collapsing => "accordion-collapsing"
     | Collapsed => "accordion-collapsed"
     end].
Proof.
  destruct (host_class_state theme w h) as (H1 & H2 & H3 & H4).
  unfold state_classes.
  rewrite !filter_cons, filter_nil. rewrite H1, H2, H3, H4.
  destruct (state (acc w)); done.
Qed.

(** One render is consistent with itself: the header part and the
    content part carry "expanded" together, exactly when the host has
    the class of Expanded or of Expanding, and the header's button, if
    it is there, says "true" in exactly that case. *)
Theorem render_agrees_on_expanded (theme : string) (w : World)
    (h : option HeaderElement) :
  let r := render_host theme w h in
  let open' := bool_decide (host_class r !! "accordion-expanded" = Some true
                           ∨ host_class r !! "accordion-expanding" = Some true) in
  headerPart r = (if open' then "header expanded" else "header")
  ∧ contentPart r = (if open' then "content expanded" else "content")
  ∧ (aria_expanded (rendered_header r) = None
     ∨ aria_expanded (rendered_header r)
       = Some (if open' then "true" else "false")).
Proof.
  destruct (host_class_state theme w h) as (H1 & H2 & _ & _).
  cbv zeta. rewrite H1, H2.
  assert (Ho : expanded (state (acc w)) =
               bool_decide (Some (bool_decide (state (acc w) = Expanded)) = Some true
                 ∨ Some (bool_decide (state (acc w) = Expanding)) = Some true)).
  { by destruct (state (acc w)). }
  rewrite <- Ho. simpl. split; [done|]. split; [done|].
  destruct (aria_expanded_setAria_cases (expanded (state (acc w))) h)
    as [-> | ->]; auto.
Qed.

(** ** Autogenerated values *)

Lemma accordionIds_next_min n :
  accordionIds_next (N.min n accordionIds_max)
  = N.min (N.succ n) accordionIds_max.
Proof.
  unfold accordionIds_next. generalize accordionIds_max. intros m.
  case_decide; lia.
Qed.

Lemma accordionIds_after_min k :
  accordionIds_after k = N.min k accordionIds_max.
Proof.
  unfold accordionIds_after.
  induction k as [|k IH] using N.peano_ind.
  - symmetry. apply N.min_l, N.le_0_l.
  - by rewrite N.iter_succ, IH, accordionIds_next_min.
Qed.

Lemma append_inj_l (s a b : string) : s +:+ a = s +:+ b → a = b.
Proof.
  induction s as [|c s IH]; [done|].
  intros H. apply IH. by injection H.
Qed.

Lemma default_value_inj a b :
  (default_value a).1 = (default_value b).1 → a = b.
Proof.
  unfold default_value. cbn [fst]. intros H.
  apply append_inj_l in H. by apply (inj pretty) in H.
Qed.

(** Instances constructed one after another without a [value] of their
    own get values that differ from each other, as long as the counter
    counts: up to the instance numbered 2^53 (from zero).  There the
    counter stays, and every later instance gets that same value. *)
Theorem default_values_differ (i j : N) :
  (i < j)%N → (j ≤ accordionIds_max)%N →
  (default_value (accordionIds_after i)).1
    ≠ (default_value (accordionIds_after j)).1
  ∧ (default_value (accordionIds_after i)).2 = accordionIds_after (i + 1)
  ∧ ∀ k, (accordionIds_max ≤ k)%N →
         default_value (accordionIds_after k)
         = default_value (accordionIds_after accordionIds_max).
Proof.
  intros Hij Hj. split; [|split].
  - intros H. apply default_value_inj in H.
    rewrite !accordionIds_after_min in H.
    revert H Hij Hj. generalize accordionIds_max. intros m. lia.
  - unfold default_value. cbn [snd].
    unfold accordionIds_after. by rewrite N.add_1_r, N.iter_succ.
  - intros k Hk. rewrite !accordionIds_after_min. f_equal.
    revert Hk. generalize accordionIds_max. intros m. lia.
Qed.

(** ** The further theorems at concrete inputs *)

Lemma animated_expand_witness :
  contentEl (acc (attached (ValueArray []))) = Some 10%nat
  ∧ contentElWrapper (acc (attached (ValueArray []))) = Some 11%nat
  ∧ state (acc (attached (ValueArray []))) ≠ Expanded
  ∧ shouldAnimate (attached (ValueArray [])) = true
  ∧ idle (attached (ValueArray []))
  ∧ completes 10 (TransitionEnd 10)
  ∧ state (acc (step (animationFrame (animationFrame
             (expandAccordion false (attached (ValueArray [])))))
             (TransitionEnd 10))) = Expanded.
Proof.
  assert (Hs : state (acc (attached (ValueArray []))) ≠ Expanded)
    by (simpl; discriminate).
  assert (Hc : completes 10 (TransitionEnd 10)) by (left; reflexivity).
  assert (Hi : idle (attached (ValueArray []))) by (split; reflexivity).
  repeat (split; [first [reflexivity | exact Hs | exact Hc | exact Hi]|]).
  exact (proj1 (proj2 (proj2 (proj2 (animated_expand_sequence
    (attached (ValueArray [])) 10 11 (TransitionEnd 10)
    eq_refl eq_refl Hs eq_refl Hi Hc))))).
Defined.

Lemma pending_collapse_witness :
  contentEl (acc expanding_panel) = Some 10%nat
  ∧ contentElWrapper (acc expanding_panel) = Some 11%nat
  ∧ (state (acc expanding_panel) = Collapsing
     ∨ state (acc expanding_panel) = Expanding)
  ∧ shouldAnimate expanding_panel = true
  ∧ (3, CollapseOuter 10)
      ∉ frames (sched (issue CmdExpand false
                         (collapseAccordion false expanding_panel))).
Proof.
  assert (Hs : state (acc expanding_panel) = Collapsing
               ∨ state (acc expanding_panel) = Expanding)
    by (right; reflexivity).
  repeat (split; [first [reflexivity | exact Hs]|]).
  exact (proj2 (proj2 (pending_collapse_is_cancelled CmdExpand
    expanding_panel 10 11 eq_refl eq_refl Hs eq_refl)) (CollapseOuter 10)).
Defined.

Lemma unchanged_membership_witness :
  state (acc (attached (ValueArray ["a"])))
    = (if is_open (ValueArray ["a"; "b"])
                  (value (acc (attached (ValueArray ["a"]))))
       then Expanded else Collapsed)
  ∧ sched (step (attached (ValueArray ["a"]))
                (GroupValueChange (ValueArray ["a"; "b"])))
    = sched (attached (ValueArray ["a"])).
Proof.
  split; [reflexivity|].
  exact (proj1 (proj2 (unchanged_membership_is_inert
    (attached (ValueArray ["a"])) (ValueArray ["a"; "b"]) eq_refl))).
Defined.

Lemma attach_in_group_witness :
  closest_accordion_group (fresh "a" (sample_page (ValueArray ["a"])))
    = RefElement
  ∧ idle (fresh "a" (sample_page (ValueArray ["a"])))
  ∧ synced (connectedCallback (fresh "a" (sample_page (ValueArray ["a"])))).
Proof.
  assert (Hi : idle (fresh "a" (sample_page (ValueArray ["a"]))))
    by (split; reflexivity).
  split; [reflexivity|]. split; [exact Hi|].
  exact (proj2 (proj2 (proj2 (proj2 (proj2 (attach_in_group
    (fresh "a" (sample_page (ValueArray ["a"]))) eq_refl))))) Hi).
Defined.

Lemma detach_witness :
  accordionGroupEl (acc (attached (ValueArray ["a"]))) = RefElement
  ∧ group_listening
      (group (page (disconnectedCallback (attached (ValueArray ["a"])))))
    = false.
Proof.
  split; [reflexivity|].
  exact (proj1 (detach_stops_notifications (attached (ValueArray ["a"]))
    ValueNull eq_refl)).
Defined.

Lemma value_change_witness :
  accordionGroupEl (acc (attached (ValueArray ["a"]))) = RefElement
  ∧ idle (attached (ValueArray ["a"]))
  ∧ ends_transition (contentEl (acc (attached (ValueArray ["a"]))))
                    (Elapse 2000)
  ∧ state (acc (run [AnimationFrame; AnimationFrame; Elapse 2000]
                  (valueChanged "b" (attached (ValueArray ["a"])))))
    = Collapsed.
Proof.
  assert (Hi : idle (attached (ValueArray ["a"]))) by (split; reflexivity).
  assert (He : ends_transition
                 (contentEl (acc (attached (ValueArray ["a"]))))
                 (Elapse 2000)).
  { left. exists 2000. split; [lia|reflexivity]. }
  split; [reflexivity|]. split; [exact Hi|]. split; [exact He|].
  exact (proj2 (proj2 (value_change_settles (attached (ValueArray ["a"]))
    "b" (Elapse 2000) eq_refl Hi He))).
Defined.

Lemma other_tags_witness :
  accordionGroupEl
    (acc (run [Connect] (fresh "b" (divided_page (ValueArray ["a"])))))
    = RefElement
  ∧ isPrevious
      (acc (updateState false
              (run [Connect] (fresh "b" (divided_page (ValueArray ["a"]))))))
    = false.
Proof.
  split; [reflexivity|].
  refine (proj1 (other_tags_are_no_neighbours false
    (run [Connect] (fresh "b" (divided_page (ValueArray ["a"]))))
    {| closest_group := true;
       nextElementSibling :=
         Some {| tagName := "DIV"; sibling_value := Some "a" |};
       previousElementSibling :=
         Some {| tagName := "ION-ACCORDION"; sibling_value := Some "a" |} |}
    eq_refl eq_refl eq_refl) _).
  intros s Hs. injection Hs as <-. simpl. discriminate.
Defined.

Lemma item_defaults_witness :
  getSlottedHeaderIonItem sample_header = Some (1%nat, sample_item)
  ∧ ∃ y, getSlottedHeaderIonItem (setItemDefaults sample_header)
           = Some (1%nat, y)
         ∧ item_button y = true
         ∧ item_lines y = Some "inset".
Proof.
  split; [reflexivity|].
  destruct (item_defaults_keep_explicit_lines sample_header 1 sample_item
              eq_refl) as (y & H1 & H2 & _ & H3 & _).
  exists y. split; [exact H1|]. split; [exact H2|exact H3].
Defined.

Lemma toggle_icon_witness :
  getSlottedHeaderIonItem sample_header = Some (1%nat, sample_item)
  ∧ ∃ y, getSlottedHeaderIonItem (slotToggleIcon "end" "chevron" sample_header)
           = Some (1%nat, y)
         ∧ toggle_icons y = 1%nat.
Proof.
  split; [reflexivity|].
  destruct (toggle_icon_is_slotted_once "end" "chevron" sample_header 1
              sample_item eq_refl) as (y & H1 & H2 & _).
  exists y. split; [exact H1|exact H2].
Defined.

Lemma aria_expanded_witness :
  aria_expanded (setAria true label_only_header) = None
  ∧ setAria true label_only_header = label_only_header.
Proof.
  split; [reflexivity|].
  exact (proj2 (aria_expanded_after_setAria true label_only_header) eq_refl).
Defined.

Lemma load_prepares_witness :
  getSlottedHeaderIonItem sample_header = Some (1%nat, sample_item)
  ∧ aria_expanded
      (componentDidLoad_frame (attached (ValueArray ["a"]))
         (componentDidLoad_now "end" "chevron" sample_header))
    = Some "true".
Proof.
  split; [reflexivity|].
  destruct (load_prepares_header "end" "chevron" (attached (ValueArray ["a"]))
              sample_header 1 sample_item eq_refl) as (y & _ & _ & _ & _ & _ & H).
  exact H.
Defined.

Lemma default_values_witness :
  (0 < 1)%N ∧ (1 ≤ accordionIds_max)%N
  ∧ (default_value (accordionIds_after 0)).1
      ≠ (default_value (accordionIds_after 1)).1.
Proof.
  assert (H1 : (0 < 1)%N) by reflexivity.
  assert (H2 : (1 ≤ accordionIds_max)%N) by (unfold accordionIds_max; lia).
  split; [exact H1|]. split; [exact H2|].
  exact (proj1 (default_values_differ 0 1 H1 H2)).
Defined.
